(** * Quoridor rules engine: a shallow embedding of [dist/index.js]

    The development follows the source file function by function:
    [createInitialState], [isWithinBounds], [getAdjacentSquares],
    [isWallBlocking], [getLegalMoves], [hasPathToGoal], [isLegalWall],
    [applyMove], [applyWall] and the click handlers of the driver.

    Conventions of the embedding.
    - Coordinates, identifiers, wall counts and player indices are JavaScript
      numbers that only ever hold integers here; they are modelled as [Z].
    - A call either returns a value or is aborted by a [TypeError] (reading a
      property of [undefined]); the [while] loop of [hasPathToGoal] is run
      with an explicit iteration budget.  The three cases are the
      constructors of [outcome].
    - [state.players] is the two-element array built by
      [createInitialState]; it is a pair, and an index other than 0 or 1
      reads [undefined].
    - The orientation of a wall is one of the two strings ['h'] and ['v'],
      the kind of a move one of ['normal'] and ['jump']. *)

From Stdlib Require Import ZArith Lia List Bool.
From stdpp Require Import base decidable option list gmap.
Import ListNotations.
Local Open Scope Z_scope.
#[local] Set Warnings "-clear-no-such-hyp".

(** ** Results of calls *)

Inductive outcome (A : Type) : Type :=
| Returns (a : A)
| Throws
| OutOfFuel.
Arguments Returns {A} a.
Arguments Throws {A}.
Arguments OutOfFuel {A}.

#[global] Instance outcome_ret : MRet outcome := fun A a => Returns a.
#[global] Instance outcome_bind : MBind outcome := fun A B f m =>
  match m with
  | Returns a => f a
  | Throws => Throws
  | OutOfFuel => OutOfFuel
  end.

(** ** Data model *)

(** ['h'] and ['v'] *)
Inductive Orientation := Hor | Ver.
Inductive MoveType := normal | jump.

Record Player := mkPlayer { p_id : Z; p_x : Z; p_y : Z; p_walls : Z }.
Record Wall := mkWall { w_x : Z; w_y : Z; w_orientation : Orientation }.
Record Move := mkMove { m_x : Z; m_y : Z; m_type : MoveType }.

(** A board cell read from a row: [Some n] for a number, [None] for
    [undefined] (a hole of the array, or an index past its end). *)
Definition Cell := option Z.
Definition Row := list Cell.
Definition Board := list Row.

Record State := mkState {
  board : Board;
  players : Player * Player;
  walls : list Wall;
  currentPlayer : Z;
  wallPreview : option Wall;
  winner : option Z;
  selectedPlayer : option Z;
  isWallMode : bool
}.

#[global] Instance Orientation_eq_dec : EqDecision Orientation.
Proof. solve_decision. Defined.
#[global] Instance MoveType_eq_dec : EqDecision MoveType.
Proof. solve_decision. Defined.
#[global] Instance Player_eq_dec : EqDecision Player.
Proof. solve_decision. Defined.
#[global] Instance Wall_eq_dec : EqDecision Wall.
Proof. solve_decision. Defined.
#[global] Instance Move_eq_dec : EqDecision Move.
Proof. solve_decision. Defined.

(** ** Arrays indexed by numbers *)

(** [a[i]] for an integer [i]: [None] stands for [undefined]. *)
Definition lookupZ {A} (l : list A) (i : Z) : option A :=
  if i <? 0 then None else l !! Z.to_nat i.

(** [row[j]]: the cell, [undefined] outside the row. *)
Definition row_get (r : Row) (j : Z) : Cell :=
  match lookupZ r j with Some c => c | None => None end.

(** [row[j] = v].  Inside the row the cell is overwritten; past its end the
    array grows, the new cells in between being holes.  An index that is not
    an array index (negative, or above 2^32 - 2) creates a named property:
    the program reads rows at the indices 0..8 only and copies them with a
    spread, which drops such properties, so the indexed part is unchanged. *)
Definition row_set (r : Row) (j : Z) (v : Z) : Row :=
  if (j <? 0) || (4294967295 <=? j) then r
  else if j <? Z.of_nat (length r) then <[Z.to_nat j := Some v]> r
  else r ++ replicate (Z.to_nat j - length r)%nat None ++ [Some v].

(** [board[i][j]]: reading a cell of a missing row throws. *)
Definition board_get (b : Board) (i j : Z) : outcome Cell :=
  match lookupZ b i with
  | Some r => Returns (row_get r j)
  | None => Throws
  end.

(** [board[i][j] = v]: writing into a missing row throws. *)
Definition board_set (b : Board) (i j : Z) (v : Z) : outcome Board :=
  match lookupZ b i with
  | Some r => Returns (<[Z.to_nat i := row_set r j v]> b)
  | None => Throws
  end.

(** [c === 0] *)
Definition cell_is_zero (c : Cell) : bool :=
  match c with Some n => n =? 0 | None => false end.

(** [state.players[idx]] *)
Definition get_player (st : State) (idx : Z) : outcome Player :=
  if idx =? 0 then Returns (fst (players st))
  else if idx =? 1 then Returns (snd (players st))
  else Throws.

(** [newPlayers[idx] = p] on the two-element array, for [idx] 0 or 1. *)
Definition set_player (ps : Player * Player) (idx : Z) (p : Player)
  : Player * Player :=
  if idx =? 0 then (p, snd ps) else (fst ps, p).

(** ** createInitialState *)

Definition createInitialState : outcome State :=
  let board0 : Board := replicate 9 (replicate 9 (Some 0)) in
  board1 ← board_set board0 4 8 1;
  board2 ← board_set board1 4 0 2;
  mret {| board := board2;
          players := ({| p_id := 1; p_x := 4; p_y := 8; p_walls := 10 |},
                      {| p_id := 2; p_x := 4; p_y := 0; p_walls := 10 |});
          walls := [];
          currentPlayer := 0;
          wallPreview := None;
          winner := None;
          selectedPlayer := None;
          isWallMode := false |}.

(** ** Geometry helpers *)

Definition isWithinBounds (x y : Z) : bool :=
  (0 <=? x) && (x <? 9) && (0 <=? y) && (y <? 9).

Definition directions : list (Z * Z) := [(0, -1); (0, 1); (-1, 0); (1, 0)].

Definition getAdjacentSquares (x y : Z) : list (Z * Z) :=
  filter (λ c, isWithinBounds c.1 c.2 = true)
         ((λ d, (x + d.1, y + d.2)) <$> directions).

(** The test made for one wall inside the loop of [isWallBlocking]. *)
Definition wall_blocks (minX maxX minY maxY : Z) (w : Wall) : bool :=
  match w_orientation w with
  | Hor => (minY =? w_y w - 1) && (maxY =? w_y w)
         && (w_x w - 1 <=? minX) && (maxX <=? w_x w)
  | Ver => (minX =? w_x w - 1) && (maxX =? w_x w)
         && (w_y w - 1 <=? minY) && (maxY <=? w_y w)
  end.

Definition isWallBlocking (st : State) (fromX fromY toX toY : Z) : bool :=
  let minX := Z.min fromX toX in
  let maxX := Z.max fromX toX in
  let minY := Z.min fromY toY in
  let maxY := Z.max fromY toY in
  existsb (wall_blocks minX maxX minY maxY) (walls st).

(** ** getLegalMoves *)

(** [l.filter(f)] for a callback that may throw. *)
Fixpoint filterM {A} (f : A → outcome bool) (l : list A) : outcome (list A) :=
  match l with
  | [] => Returns []
  | a :: l' =>
      b ← f a;
      r ← filterM f l';
      mret (if b : bool then a :: r else r)
  end.

(** The body of the outer [for] loop, for one adjacent square. *)
Definition legalMoves_step (st : State) (player opponent : Player)
    (moves : list Move) (c : Z * Z) : outcome (list Move) :=
  let '(x, y) := c in
  if (x =? p_x opponent) && (y =? p_y opponent) then
    jumpMoves ← filterM (λ s, cl ← board_get (board st) s.1 s.2;
                              mret (cell_is_zero cl))
                        (getAdjacentSquares x y);
    mret (moves ++
          ((λ s, mkMove s.1 s.2 jump)
             <$> filter (λ s, isWallBlocking st x y s.1 s.2 = false)
                        jumpMoves))
  else
    cl ← board_get (board st) x y;
    mret (if cell_is_zero cl
             && negb (isWallBlocking st (p_x player) (p_y player) x y)
          then moves ++ [mkMove x y normal] else moves).

Fixpoint foldM {A B} (f : B → A → outcome B) (acc : B) (l : list A)
  : outcome B :=
  match l with
  | [] => Returns acc
  | a :: l' => acc' ← f acc a; foldM f acc' l'
  end.

Definition getLegalMoves (st : State) (playerIdx : Z) : outcome (list Move) :=
  player ← get_player st playerIdx;
  opponent ← get_player st (1 - playerIdx);
  foldM (legalMoves_step st player opponent) []
        (getAdjacentSquares (p_x player) (p_y player)).

(** ** hasPathToGoal *)

(** The [while] loop.  [visited] is the [Set] of keys ["x,y"], one key per
    cell; [queue] is the array used as a FIFO. *)
Fixpoint bfs_loop (fuel : nat) (st : State) (goalY : Z)
    (visited : gset (Z * Z)) (queue : list (Z * Z)) : outcome bool :=
  match fuel with
  | O => OutOfFuel
  | S fuel' =>
      match queue with
      | [] => Returns false
      | (x, y) :: rest =>
          if decide ((x, y) ∈ visited) then bfs_loop fuel' st goalY visited rest
          else
            let visited' := visited ∪ {[ (x, y) ]} in
            if y =? goalY then Returns true
            else
              bfs_loop fuel' st goalY visited'
                (rest ++ filter (λ a, (a ∉ visited')
                                      ∧ (isWallBlocking st x y a.1 a.2 = false))
                                (getAdjacentSquares x y))
      end
  end.

(** Iteration budget: every iteration either drops a queue entry or marks a
    fresh cell, and a cell is the start or one of the 81 of the board. *)
Definition bfs_fuel : nat := 412.

Definition hasPathToGoal (st : State) (playerIdx : Z) : outcome bool :=
  player ← get_player st playerIdx;
  let goalY := if playerIdx =? 0 then 0 else 8 in
  bfs_loop bfs_fuel st goalY ∅ [(p_x player, p_y player)].

(** ** isLegalWall *)

(** The tests made for one existing wall inside the loop of [isLegalWall]. *)
Definition wall_conflicts (wall existingWall : Wall) : bool :=
  ((w_x existingWall =? w_x wall) && (w_y existingWall =? w_y wall))
  || match w_orientation wall with
     | Hor => match w_orientation existingWall with
            | Hor => (w_y existingWall =? w_y wall)
                   && (Z.abs (w_x existingWall - w_x wall) <=? 1)
            | Ver => false
            end
     | Ver => match w_orientation existingWall with
            | Ver => (w_x existingWall =? w_x wall)
                   && (Z.abs (w_y existingWall - w_y wall) <=? 1)
            | Hor => false
            end
     end.

Definition with_walls (st : State) (ws : list Wall) : State :=
  {| board := board st; players := players st; walls := ws;
     currentPlayer := currentPlayer st; wallPreview := wallPreview st;
     winner := winner st; selectedPlayer := selectedPlayer st;
     isWallMode := isWallMode st |}.

Definition isLegalWall (st : State) (wall : Wall) : outcome bool :=
  if (w_x wall <? 1) || (8 <? w_x wall) || (w_y wall <? 1) || (8 <? w_y wall)
  then Returns false
  else if existsb (wall_conflicts wall) (walls st) then Returns false
  else
    let tempState := with_walls st (walls st ++ [wall]) in
    b0 ← hasPathToGoal tempState 0;
    if b0 : bool then hasPathToGoal tempState 1 else Returns false.

(** ** applyMove and applyWall *)

Definition applyMove (st : State) (playerIdx x y : Z) : outcome State :=
  player ← get_player st playerIdx;
  newBoard ← board_set (board st) (p_x player) (p_y player) 0;
  newBoard ← board_set newBoard x y (p_id player);
  let newPlayers :=
    set_player (players st) playerIdx
               {| p_id := p_id player; p_x := x; p_y := y;
                  p_walls := p_walls player |} in
  let winner0 : option Z := None in
  let winner1 := if (playerIdx =? 0) && (y =? 0) then Some 0 else winner0 in
  let winner2 := if (playerIdx =? 1) && (y =? 8) then Some 1 else winner1 in
  mret {| board := newBoard;
          players := newPlayers;
          walls := walls st;
          currentPlayer := match winner2 with
                           | None => 1 - playerIdx
                           | Some _ => currentPlayer st
                           end;
          wallPreview := wallPreview st;
          winner := winner2;
          selectedPlayer := None;
          isWallMode := isWallMode st |}.

Definition applyWall (st : State) (wall : Wall) : outcome State :=
  player ← get_player st (currentPlayer st);
  let newPlayers :=
    set_player (players st) (currentPlayer st)
               {| p_id := p_id player; p_x := p_x player; p_y := p_y player;
                  p_walls := p_walls player - 1 |} in
  mret {| board := board st;
          players := newPlayers;
          walls := walls st ++ [wall];
          currentPlayer := 1 - currentPlayer st;
          wallPreview := None;
          winner := winner st;
          selectedPlayer := selectedPlayer st;
          isWallMode := isWallMode st |}.

(** ** The driver: click handlers

    The driver keeps one shared state record and overwrites its fields in
    place ([Object.assign(state, newState)]); a handler is modelled by the
    content of that record when the handler ends.  [render] only reads the
    record and writes to the page, so it does not appear.  A handler that
    throws has not yet written to the record. *)

(** Truthiness of [state.winner] ([null] or a number) in a condition. *)
Definition truthy (o : option Z) : bool :=
  match o with
  | Some n => negb (n =? 0)
  | None => false
  end.

Definition with_selectedPlayer (st : State) (s : option Z) : State :=
  {| board := board st; players := players st; walls := walls st;
     currentPlayer := currentPlayer st; wallPreview := wallPreview st;
     winner := winner st; selectedPlayer := s;
     isWallMode := isWallMode st |}.

Definition with_wallPreview (st : State) (w : option Wall) : State :=
  {| board := board st; players := players st; walls := walls st;
     currentPlayer := currentPlayer st; wallPreview := w;
     winner := winner st; selectedPlayer := selectedPlayer st;
     isWallMode := isWallMode st |}.

Definition with_isWallMode (st : State) (b : bool) : State :=
  {| board := board st; players := players st; walls := walls st;
     currentPlayer := currentPlayer st; wallPreview := wallPreview st;
     winner := winner st; selectedPlayer := selectedPlayer st;
     isWallMode := b |}.

(** [l.find(w => w.x === x && w.y === y)] on walls and on moves *)
Definition find_wall (x y : Z) (l : list Wall) : option Wall :=
  List.find (λ w, (w_x w =? x) && (w_y w =? y)) l.
Definition find_move (x y : Z) (l : list Move) : option Move :=
  List.find (λ m, (m_x m =? x) && (m_y m =? y)) l.

Definition handleSquareClick (st : State) (x y : Z) : outcome State :=
  if truthy (winner st) || isWallMode st || bool_decide (is_Some (wallPreview st))
  then Returns st
  else
    currentP ← get_player st (currentPlayer st);
    opponent ← get_player st (1 - currentPlayer st);
    if (x =? p_x currentP) && (y =? p_y currentP) then
      Returns (with_selectedPlayer st (Some (currentPlayer st)))
    else if bool_decide (selectedPlayer st = Some (currentPlayer st)) then
      moves ← getLegalMoves st (currentPlayer st);
      match find_move x y moves with
      | Some _ => applyMove st (currentPlayer st) x y
      | None =>
          if negb (x =? p_x opponent) || negb (y =? p_y opponent)
          then Returns (with_selectedPlayer st None)
          else Returns st
      end
    else Returns st.

Definition flip_orientation (o : Orientation) : Orientation :=
  match o with Hor => Ver | Ver => Hor end.

Definition handleWallClick (st : State) (x y : Z) : outcome State :=
  if truthy (winner st) || negb (isWallMode st) then Returns st
  else if bool_decide (is_Some (find_wall x y (walls st))) then Returns st
  else
    currentP ← get_player st (currentPlayer st);
    if p_walls currentP <=? 0 then Returns st
    else
      match wallPreview st with
      | Some wp =>
          if (w_x wp =? x) && (w_y wp =? y)
          then Returns (with_wallPreview st
                 (Some (mkWall (w_x wp) (w_y wp)
                               (flip_orientation (w_orientation wp)))))
          else Returns (with_wallPreview st (Some (mkWall x y Hor)))
      | None => Returns (with_wallPreview st (Some (mkWall x y Hor)))
      end.

Definition handleWallRightClick (st : State) (x y : Z) : outcome State :=
  match wallPreview st with
  | None => Returns st
  | Some wp =>
      if truthy (winner st) || negb (isWallMode st) then Returns st
      else if bool_decide (is_Some (find_wall x y (walls st))) then Returns st
      else
        currentP ← get_player st (currentPlayer st);
        if p_walls currentP <=? 0 then Returns st
        else if (w_x wp =? x) && (w_y wp =? y) then
          legal ← isLegalWall st wp;
          if legal : bool then
            newState ← applyWall st wp;
            mret (with_isWallMode newState false)
          else Returns st
        else Returns st
  end.

(** [window.toggleWallMode] *)
Definition toggleWallMode (st : State) : State :=
  with_selectedPlayer (with_isWallMode st (negb (isWallMode st))) None.

(** The [keydown] listener, for the Escape key. *)
Definition handleEscape (st : State) : State :=
  if isWallMode st then with_wallPreview (with_isWallMode st false) None
  else st.

(** The gestures the page reacts to, and a run of the driver over them. *)
Inductive Gesture :=
| SquareClick (x y : Z)
| WallClick (x y : Z)
| WallRightClick (x y : Z)
| ToggleWallMode
| EscapeKey
| ResetGame.

Definition handle (st : State) (g : Gesture) : outcome State :=
  match g with
  | SquareClick x y => handleSquareClick st x y
  | WallClick x y => handleWallClick st x y
  | WallRightClick x y => handleWallRightClick st x y
  | ToggleWallMode => Returns (toggleWallMode st)
  | EscapeKey => Returns (handleEscape st)
  | ResetGame => createInitialState
  end.

Definition run_driver (gs : list Gesture) : outcome State :=
  st ← createInitialState; foldM handle st gs.

(** ** Notions used by the statements *)

(** The state [createInitialState] returns. *)
Definition initialState : State :=
  {| board := [ replicate 9 (Some 0); replicate 9 (Some 0);
                replicate 9 (Some 0); replicate 9 (Some 0);
                Some 2 :: replicate 7 (Some 0) ++ [Some 1];
                replicate 9 (Some 0); replicate 9 (Some 0);
                replicate 9 (Some 0); replicate 9 (Some 0) ];
     players := ({| p_id := 1; p_x := 4; p_y := 8; p_walls := 10 |},
                 {| p_id := 2; p_x := 4; p_y := 0; p_walls := 10 |});
     walls := [];
     currentPlayer := 0;
     wallPreview := None;
     winner := None;
     selectedPlayer := None;
     isWallMode := false |}.

(** The 9x9 board whose cell [(i, j)] is [f i j]. *)
Definition mk_board (f : Z → Z → Cell) : Board :=
  map (λ i, map (λ j, f i j) (seqZ 0 9)) (seqZ 0 9).

(** What the board must hold at [(i, j)] given the two pawns. *)
Definition expected_cell (ps : Player * Player) (i j : Z) : Cell :=
  if (i =? p_x ps.1) && (j =? p_y ps.1) then Some (p_id ps.1)
  else if (i =? p_x ps.2) && (j =? p_y ps.2) then Some (p_id ps.2)
  else Some 0.

(** Board occupancy equals exactly the two pawns' positions: both pawns stand
    on the board, on two different cells, each pawn's cell holds its
    identifier and every other cell of the 9x9 grid is empty. *)
Definition occupancy_matches (st : State) : Prop :=
  isWithinBounds (p_x (players st).1) (p_y (players st).1) = true
  ∧ isWithinBounds (p_x (players st).2) (p_y (players st).2) = true
  ∧ (p_x (players st).1, p_y (players st).1)
      ≠ (p_x (players st).2, p_y (players st).2)
  ∧ board st = mk_board (expected_cell (players st)).

#[global] Instance occupancy_matches_dec st : Decision (occupancy_matches st).
Proof. unfold occupancy_matches. apply _. Defined.

(** The cell at [(i, j)], [undefined] when the row is missing as well. *)
Definition cell_at (b : Board) (i j : Z) : Cell :=
  match lookupZ b i with
  | Some r => row_get r j
  | None => None
  end.

(** Two placed walls overlap in the sense of the wall-legality rules: same
    intersection, or same orientation on the same track (same cross-axis
    coordinate: [y] for horizontal walls, [x] for vertical ones) with
    along-axis coordinates at most 1 apart. *)
Definition walls_overlap (wall existingWall : Wall) : Prop :=
  (w_x existingWall = w_x wall ∧ w_y existingWall = w_y wall)
  ∨ (w_orientation existingWall = w_orientation wall
     ∧ match w_orientation wall with
       | Hor => w_y existingWall = w_y wall
              ∧ Z.abs (w_x existingWall - w_x wall) ≤ 1
       | Ver => w_x existingWall = w_x wall
              ∧ Z.abs (w_y existingWall - w_y wall) ≤ 1
       end).

(** One unblocked orthogonal step on the grid: [b] is a cell of the board
    next to [a] and no wall of [st] cuts the step.  Pawns play no role. *)
Definition open_step (st : State) (a b : Z * Z) : Prop :=
  b ∈ getAdjacentSquares a.1 a.2
  ∧ isWallBlocking st a.1 a.2 b.1 b.2 = false.

(** Some cell of row [goalY] can be reached from [start] by open steps. *)
Definition path_to_row (st : State) (start : Z * Z) (goalY : Z) : Prop :=
  ∃ c, rtc (open_step st) start c ∧ c.2 = goalY.

(** The goal row of a player. *)
Definition goal_row (playerIdx : Z) : Z := if playerIdx =? 0 then 0 else 8.

(** Transitions a caller may make after asking the legality queries. *)
Inductive Action :=
| MovePawn (playerIdx x y : Z)
| PlaceWall (wall : Wall).

(** [approved_step guard st a st']: the input of the transition was approved
    by the matching legality query ([getLegalMoves] lists the destination,
    [isLegalWall] accepts the wall), the caller's own test [guard] passed, and
    the transition returned [st']. *)
Inductive approved_step (guard : State → Action → bool)
  : State → Action → State → Prop :=
| approved_move st p x y moves st' :
    guard st (MovePawn p x y) = true →
    getLegalMoves st p = Returns moves →
    is_Some (find_move x y moves) →
    applyMove st p x y = Returns st' →
    approved_step guard st (MovePawn p x y) st'
| approved_wall st wall st' :
    guard st (PlaceWall wall) = true →
    isLegalWall st wall = Returns true →
    applyWall st wall = Returns st' →
    approved_step guard st (PlaceWall wall) st'.

(** States reached from the initial state, with the number of walls each
    player has placed on the way. *)
Inductive reachable (guard : State → Action → bool)
  : Z → Z → State → Prop :=
| reach_init : reachable guard 0 0 initialState
| reach_move n0 n1 st p x y st' :
    reachable guard n0 n1 st →
    approved_step guard st (MovePawn p x y) st' →
    reachable guard n0 n1 st'
| reach_wall n0 n1 st wall st' :
    reachable guard n0 n1 st →
    approved_step guard st (PlaceWall wall) st' →
    reachable guard (if currentPlayer st =? 0 then n0 + 1 else n0)
                   (if currentPlayer st =? 0 then n1 else n1 + 1) st'.

(** No test besides the legality queries. *)
Definition queries_only : State → Action → bool := λ _ _, true.

(** Play in turn while the game is open: the mover is the player to move and
    no winner has been declared. *)
Definition in_turn : State → Action → bool := λ st a,
  bool_decide (winner st = None)
  && match a with
     | MovePawn p _ _ => p =? currentPlayer st
     | PlaceWall _ => true
     end.

(** The test the driver makes before it places a wall
    ([if (currentPlayer.walls <= 0) return]). *)
Definition walls_left : State → Action → bool := λ st a,
  match a with
  | MovePawn _ _ _ => true
  | PlaceWall _ =>
      match get_player st (currentPlayer st) with
      | Returns pl => negb (p_walls pl <=? 0)
      | _ => false
      end
  end.

(** An executable run of approved transitions. *)
Definition play_step (guard : State → Action → bool) (st : State) (a : Action)
  : outcome State :=
  if guard st a then
    match a with
    | MovePawn p x y =>
        moves ← getLegalMoves st p;
        if bool_decide (is_Some (find_move x y moves))
        then applyMove st p x y else Throws
    | PlaceWall wall =>
        legal ← isLegalWall st wall;
        if legal : bool then applyWall st wall else Throws
    end
  else Throws.

(** The moves the loop body of [getLegalMoves] adds for the adjacent square
    [c], on a board that has its rows. *)
Definition moves_at (st : State) (player opponent : Player) (c : Z * Z)
  : list Move :=
  if bool_decide (c = (p_x opponent, p_y opponent)) then
    (λ s, mkMove s.1 s.2 jump)
      <$> filter (λ s, isWallBlocking st c.1 c.2 s.1 s.2 = false)
            (filter (λ s, cell_is_zero (cell_at (board st) s.1 s.2) = true)
                    (getAdjacentSquares c.1 c.2))
  else if cell_is_zero (cell_at (board st) c.1 c.2)
          && negb (isWallBlocking st (p_x player) (p_y player) c.1 c.2)
  then [mkMove c.1 c.2 normal] else [].

(** What it takes for [m] to be offered to the pawn [player] facing
    [opponent]: a jump lands on an empty neighbour of the adjacent opponent
    that no wall separates from the opponent's cell; a normal move goes to an
    empty neighbour of the pawn, other than the opponent's cell, that no wall
    separates from the pawn's cell. *)
Definition legal_move (st : State) (player opponent : Player) (m : Move)
  : Prop :=
  match m_type m with
  | jump =>
      (p_x opponent, p_y opponent)
        ∈ getAdjacentSquares (p_x player) (p_y player)
      ∧ (m_x m, m_y m) ∈ getAdjacentSquares (p_x opponent) (p_y opponent)
      ∧ cell_at (board st) (m_x m) (m_y m) = Some 0
      ∧ isWallBlocking st (p_x opponent) (p_y opponent) (m_x m) (m_y m)
        = false
  | normal =>
      (m_x m, m_y m) ∈ getAdjacentSquares (p_x player) (p_y player)
      ∧ (m_x m, m_y m) ≠ (p_x opponent, p_y opponent)
      ∧ cell_at (board st) (m_x m) (m_y m) = Some 0
      ∧ isWallBlocking st (p_x player) (p_y player) (m_x m) (m_y m) = false
  end.

(** Two sample positions: the pawns face each other on column 4, player 0
    at (4,5) and player 1 at (4,4); in the second one a horizontal wall at
    (4,5) lies between the two pawns. *)
Definition facing_state : State :=
  let ps := (mkPlayer 1 4 5 10, mkPlayer 2 4 4 10) in
  {| board := mk_board (expected_cell ps);
     players := ps;
     walls := [];
     currentPlayer := 0;
     wallPreview := None;
     winner := None;
     selectedPlayer := None;
     isWallMode := false |}.

Definition separated_state : State :=
  with_walls facing_state [mkWall 4 5 Hor].

Definition play (guard : State → Action → bool) (st : State)
    (acts : list Action) : outcome State :=
  foldM (play_step guard) st acts.

(** A run in which player 0 places eleven walls, each accepted by
    [isLegalWall], while player 1 steps between (4,0) and (3,0), each step
    offered by [getLegalMoves].  The walls are horizontal, on the rows 2, 3
    and 4, and leave column 8 open. *)
Definition eleven_walls : list Action :=
  [ PlaceWall (mkWall 1 2 Hor); MovePawn 1 3 0;
    PlaceWall (mkWall 3 2 Hor); MovePawn 1 4 0;
    PlaceWall (mkWall 5 2 Hor); MovePawn 1 3 0;
    PlaceWall (mkWall 7 2 Hor); MovePawn 1 4 0;
    PlaceWall (mkWall 1 3 Hor); MovePawn 1 3 0;
    PlaceWall (mkWall 3 3 Hor); MovePawn 1 4 0;
    PlaceWall (mkWall 5 3 Hor); MovePawn 1 3 0;
    PlaceWall (mkWall 7 3 Hor); MovePawn 1 4 0;
    PlaceWall (mkWall 1 4 Hor); MovePawn 1 3 0;
    PlaceWall (mkWall 3 4 Hor); MovePawn 1 4 0;
    PlaceWall (mkWall 5 4 Hor) ].

(** A pawn move made through the page: select the pawn, click the target. *)
Definition click_move (fromX fromY toX toY : Z) : list Gesture :=
  [SquareClick fromX fromY; SquareClick toX toY].

(** A game played through the page in which player 0 walks up column 4 and
    reaches row 0, while player 1 steps aside on row 0. *)
Definition winning_game : list Gesture :=
  click_move 4 8 4 7 ++ click_move 4 0 3 0 ++
  click_move 4 7 4 6 ++ click_move 3 0 2 0 ++
  click_move 4 6 4 5 ++ click_move 2 0 3 0 ++
  click_move 4 5 4 4 ++ click_move 3 0 2 0 ++
  click_move 4 4 4 3 ++ click_move 2 0 3 0 ++
  click_move 4 3 4 2 ++ click_move 3 0 2 0 ++
  click_move 4 2 4 1 ++ click_move 2 0 3 0 ++
  click_move 4 1 4 0.

(** ** Notions used by the proofs about the search *)

(** The squares the loop of [hasPathToGoal] pushes after it has marked
    [(x, y)]. *)
Definition pushed (st : State) (visited : gset (Z * Z)) (x y : Z)
  : list (Z * Z) :=
  filter (λ a, (a ∉ visited) ∧ (isWallBlocking st x y a.1 a.2 = false))
         (getAdjacentSquares x y).

(** The loop invariant behind completeness: the start is marked or queued,
    no marked cell lies on the goal row, and every open step out of a marked
    cell leads to a cell that is marked or queued. *)
Definition bfs_inv (st : State) (goalY : Z) (start : Z * Z)
    (visited : gset (Z * Z)) (queue : list (Z * Z)) : Prop :=
  (start ∈ visited ∨ start ∈ queue)
  ∧ (∀ c, c ∈ visited → c.2 ≠ goalY)
  ∧ (∀ c d, c ∈ visited → open_step st c d → d ∈ visited ∨ d ∈ queue).

(** The cells the search can ever mark: the start and the 81 cells of the
    board. *)
Definition board_cells : gset (Z * Z) :=
  list_to_set (c ← seqZ 0 9; (λ r, (c, r)) <$> seqZ 0 9).

Definition universe (start : Z * Z) : gset (Z * Z) :=
  {[ start ]} ∪ board_cells.

(** What the driver maintains about turn and wall counts. *)
Definition counts_in_range (st : State) : Prop :=
  (currentPlayer st = 0 ∨ currentPlayer st = 1)
  ∧ 0 ≤ p_walls (players st).1 ≤ 10
  ∧ 0 ≤ p_walls (players st).2 ≤ 10.

(** ** Notions used by the further properties *)

(** An orthogonal step of length one. *)
Definition unit_step (a b : Z * Z) : Prop :=
  Z.abs (b.1 - a.1) + Z.abs (b.2 - a.2) = 1.

(** The wall [w] lies across the unit step between [a] and [b]: a
    horizontal wall at [(wx, wy)] cuts the vertical steps between the rows
    [wy - 1] and [wy] in the columns [wx - 1] and [wx]; a vertical wall cuts
    the horizontal steps between the columns [wx - 1] and [wx] in the rows
    [wy - 1] and [wy]. *)
Definition wall_cuts (w : Wall) (a b : Z * Z) : Prop :=
  match w_orientation w with
  | Hor => a.1 = b.1 ∧ (a.1 = w_x w - 1 ∨ a.1 = w_x w)
           ∧ ((a.2 = w_y w - 1 ∧ b.2 = w_y w)
              ∨ (a.2 = w_y w ∧ b.2 = w_y w - 1))
  | Ver => a.2 = b.2 ∧ (a.2 = w_y w - 1 ∨ a.2 = w_y w)
           ∧ ((a.1 = w_x w - 1 ∧ b.1 = w_x w)
              ∨ (a.1 = w_x w ∧ b.1 = w_x w - 1))
  end.

(** The walls on the board lie on intersections of the grid, no two on the
    same one, and each was paid for: placed walls and walls in hand add up
    to the twenty of the game. *)
Definition walls_accounted (st : State) : Prop :=
  (∀ w, w ∈ walls st → 1 ≤ w_x w ≤ 8 ∧ 1 ≤ w_y w ≤ 8)
  ∧ NoDup ((λ w, (w_x w, w_y w)) <$> walls st)
  ∧ Z.of_nat (length (walls st))
    + p_walls (players st).1 + p_walls (players st).2 = 20.

(** A state in which player 1 has won. *)
Definition won_by_player1 : State :=
  {| board := mk_board (expected_cell
                (mkPlayer 1 4 5 10, mkPlayer 2 4 8 10));
     players := (mkPlayer 1 4 5 10, mkPlayer 2 4 8 10);
     walls := [];
     currentPlayer := 1;
     wallPreview := None;
     winner := Some 1;
     selectedPlayer := None;
     isWallMode := false |}.

(** Placing a wall through the page: enter wall mode, click the intersection
    (once for a horizontal wall, twice for a vertical one), confirm with a
    right click. *)
Definition click_wall (x y : Z) (o : Orientation) : list Gesture :=
  match o with
  | Hor => [ToggleWallMode; WallClick x y; WallRightClick x y]
  | Ver => [ToggleWallMode; WallClick x y; WallClick x y; WallRightClick x y]
  end.

(** A game played through the page.  Player 0 walks along row 8 and down
    column 0 to (0,1); player 1 walks to (1,2), places a vertical wall at
    (1,1), waits, and steps to (0,2) behind player 0; player 0 places a
    horizontal wall at (1,2), which closes the pocket (0,0)-(0,1) around
    itself; player 1 then jumps over player 0, across that wall, to (0,0). *)
Definition pocket_game : list Gesture :=
  click_move 4 8 3 8 ++ click_move 4 0 4 1 ++
  click_move 3 8 2 8 ++ click_move 4 1 4 2 ++
  click_move 2 8 1 8 ++ click_move 4 2 3 2 ++
  click_move 1 8 0 8 ++ click_move 3 2 2 2 ++
  click_move 0 8 0 7 ++ click_move 2 2 1 2 ++
  click_move 0 7 0 6 ++ click_wall 1 1 Ver ++
  click_move 0 6 0 5 ++ click_move 1 2 2 2 ++
  click_move 0 5 0 4 ++ click_move 2 2 1 2 ++
  click_move 0 4 0 3 ++ click_move 1 2 2 2 ++
  click_move 0 3 0 2 ++ click_move 2 2 1 2 ++
  click_move 0 2 0 1 ++ click_move 1 2 0 2 ++
  click_wall 1 2 Hor ++ click_move 0 2 0 0.

(** The state in which [pocket_game] ends: both pawns inside the pocket,
    player 0 to move. *)
Definition pocket_state : State :=
  let ps := (mkPlayer 1 0 1 9, mkPlayer 2 0 0 9) in
  {| board := mk_board (expected_cell ps);
     players := ps;
     walls := [mkWall 1 1 Ver; mkWall 1 2 Hor];
     currentPlayer := 0;
     wallPreview := None;
     winner := None;
     selectedPlayer := None;
     isWallMode := false |}.

(** The states that differ from [st] in the fields of the page only. *)
Definition same_game (st st' : State) : Prop :=
  board st' = board st ∧ players st' = players st ∧ walls st' = walls st
  ∧ currentPlayer st' = currentPlayer st ∧ winner st' = winner st.

(** * Properties *)

(** ** Results of calls: basic facts *)

Lemma bind_Returns {A B} (m : outcome A) (f : A → outcome B) (b : B) :
  m ≫= f = Returns b ↔ ∃ a, m = Returns a ∧ f a = Returns b.
Proof.
  destruct m; simpl; split; try naive_solver.
Qed.

Lemma get_player_Returns st idx pl :
  get_player st idx = Returns pl ↔
  (idx = 0 ∧ pl = (players st).1) ∨ (idx = 1 ∧ pl = (players st).2).
Proof.
  unfold get_player.
  destruct (Z.eqb_spec idx 0) as [->|]; [naive_solver|].
  destruct (Z.eqb_spec idx 1) as [->|]; naive_solver.
Qed.

Lemma get_player_total st idx :
  idx = 0 ∨ idx = 1 → ∃ pl, get_player st idx = Returns pl.
Proof. intros [-> | ->]; eexists; reflexivity. Qed.

Lemma lookupZ_is_Some {A} (l : list A) (i : Z) :
  is_Some (lookupZ l i) ↔ 0 ≤ i < Z.of_nat (length l).
Proof.
  unfold lookupZ. destruct (Z.ltb_spec i 0).
  - split; [intros [? [=]] | lia].
  - rewrite lookup_lt_is_Some. lia.
Qed.

Lemma board_set_Returns b i j v b' :
  board_set b i j v = Returns b' ↔
  ∃ r, lookupZ b i = Some r ∧ b' = <[Z.to_nat i := row_set r j v]> b.
Proof.
  unfold board_set. destruct (lookupZ b i); naive_solver.
Qed.

Lemma board_set_length b i j v b' :
  board_set b i j v = Returns b' → length b' = length b.
Proof.
  rewrite board_set_Returns. intros (r & _ & ->). apply length_insert.
Qed.

Lemma board_set_total b i j v :
  is_Some (lookupZ b i) → ∃ b', board_set b i j v = Returns b'.
Proof. intros [r Hr]. unfold board_set. rewrite Hr. eauto. Qed.

(** ** createInitialState *)

Lemma createInitialState_eq : createInitialState = Returns initialState.
Proof. reflexivity. Qed.

Lemma initialState_occupancy : occupancy_matches initialState.
Proof. unfold occupancy_matches; simpl; repeat split; congruence. Qed.

(** C9. [createInitialState()] returns one fixed state: player 0
    (identifier 1) at (4,8) with 10 walls, player 1 (identifier 2) at (4,0)
    with 10 walls, no wall placed, a board that holds exactly those two
    pawns, player 0 to move and no winner. *)
Theorem createInitialState_spec :
  ∃ st, createInitialState = Returns st
    ∧ players st = (mkPlayer 1 4 8 10, mkPlayer 2 4 0 10)
    ∧ walls st = []
    ∧ occupancy_matches st
    ∧ cell_at (board st) 4 8 = Some 1
    ∧ cell_at (board st) 4 0 = Some 2
    ∧ (∀ i j, isWithinBounds i j = true → (i, j) ≠ (4, 8) → (i, j) ≠ (4, 0) →
         cell_at (board st) i j = Some 0)
    ∧ currentPlayer st = 0
    ∧ winner st = None.
Proof.
  exists initialState. split; [apply createInitialState_eq|].
  split; [reflexivity|]. split; [reflexivity|].
  split; [apply initialState_occupancy|].
  split; [reflexivity|]. split; [reflexivity|].
  split; [|split; reflexivity].
  intros i j Hb Hne1 Hne2. unfold isWithinBounds in Hb.
  assert (Hi : i = 0 ∨ i = 1 ∨ i = 2 ∨ i = 3 ∨ i = 4 ∨ i = 5 ∨ i = 6
               ∨ i = 7 ∨ i = 8) by lia.
  assert (Hj : j = 0 ∨ j = 1 ∨ j = 2 ∨ j = 3 ∨ j = 4 ∨ j = 5 ∨ j = 6
               ∨ j = 7 ∨ j = 8) by lia.
  clear Hb.
  destruct Hi as [->|[->|[->|[->|[->|[->|[->|[->| ->]]]]]]]];
  destruct Hj as [->|[->|[->|[->|[->|[->|[->|[->| ->]]]]]]]];
  try reflexivity; congruence.
Qed.

(** ** applyMove *)

Lemma applyMove_Returns st p x y st' :
  applyMove st p x y = Returns st' ↔
  ∃ player b1 b2,
    get_player st p = Returns player
    ∧ board_set (board st) (p_x player) (p_y player) 0 = Returns b1
    ∧ board_set b1 x y (p_id player) = Returns b2
    ∧ st' = {| board := b2;
               players := set_player (players st) p
                            (mkPlayer (p_id player) x y (p_walls player));
               walls := walls st;
               currentPlayer :=
                 if ((p =? 0) && (y =? 0)) || ((p =? 1) && (y =? 8))
                 then currentPlayer st else 1 - p;
               wallPreview := wallPreview st;
               winner := if (p =? 1) && (y =? 8) then Some 1
                         else if (p =? 0) && (y =? 0) then Some 0 else None;
               selectedPlayer := None;
               isWallMode := isWallMode st |}.
Proof.
  unfold applyMove. rewrite bind_Returns.
  setoid_rewrite bind_Returns. setoid_rewrite bind_Returns.
  split.
  - intros (pl & Hpl & b1 & Hb1 & b2 & Hb2 & Hst).
    exists pl, b1, b2. repeat split; try done.
    unfold mret, outcome_ret in Hst. injection Hst as <-.
    destruct ((p =? 0) && (y =? 0)), ((p =? 1) && (y =? 8)); reflexivity.
  - intros (pl & b1 & b2 & Hpl & Hb1 & Hb2 & ->).
    exists pl. split; [done|]. exists b1. split; [done|].
    exists b2. split; [done|]. unfold mret, outcome_ret. f_equal.
    destruct ((p =? 0) && (y =? 0)), ((p =? 1) && (y =? 8)); reflexivity.
Qed.

(** [applyMove] returns exactly when the player index is 0 or 1 and the
    board has a row at the pawn's [x] and at the destination's [x]; in the
    other cases the assignment to a cell of a missing row throws. *)
Lemma applyMove_returns_iff st p x y :
  (∃ st', applyMove st p x y = Returns st') ↔
  ∃ player, get_player st p = Returns player
            ∧ is_Some (lookupZ (board st) (p_x player))
            ∧ is_Some (lookupZ (board st) x).
Proof.
  split.
  - intros (st' & Hst'). apply applyMove_Returns in Hst'
      as (pl & b1 & b2 & Hpl & Hb1 & Hb2 & _).
    exists pl. split; [done|].
    pose proof (board_set_length _ _ _ _ _ Hb1) as Hlen.
    apply board_set_Returns in Hb1 as (r1 & Hr1 & _).
    apply board_set_Returns in Hb2 as (r2 & Hr2 & _).
    split; [eauto|]. apply lookupZ_is_Some.
    rewrite <- Hlen. apply lookupZ_is_Some. eauto.
  - intros (pl & Hpl & H1 & H2).
    destruct (board_set_total (board st) (p_x pl) (p_y pl) 0 H1) as [b1 Hb1].
    assert (is_Some (lookupZ b1 x)) as H2'.
    { apply lookupZ_is_Some. rewrite (board_set_length _ _ _ _ _ Hb1).
      by apply lookupZ_is_Some. }
    destruct (board_set_total b1 x y (p_id pl) H2') as [b2 Hb2].
    eexists. apply applyMove_Returns. exists pl, b1, b2. eauto.
Qed.

(** C2. Whenever [applyMove(state, p, x, y)] can return (player index 0 or
    1, and the board has the rows of the pawn and of the destination), it
    returns a state whose winner is 0 iff [p = 0] and [y = 0], is 1 iff
    [p = 1] and [y = 8], and is null otherwise; without a winner the turn
    goes to [1 - p], with a winner [currentPlayer] is the input's. *)
Theorem applyMove_winner_and_turn st p x y player :
  get_player st p = Returns player →
  is_Some (lookupZ (board st) (p_x player)) →
  is_Some (lookupZ (board st) x) →
  ∃ st', applyMove st p x y = Returns st'
    ∧ (winner st' = Some 0 ↔ p = 0 ∧ y = 0)
    ∧ (winner st' = Some 1 ↔ p = 1 ∧ y = 8)
    ∧ (¬ (p = 0 ∧ y = 0) → ¬ (p = 1 ∧ y = 8) → winner st' = None)
    ∧ (winner st' = None → currentPlayer st' = 1 - p)
    ∧ (winner st' ≠ None → currentPlayer st' = currentPlayer st).
Proof.
  intros Hpl H1 H2.
  destruct (proj2 (applyMove_returns_iff st p x y)) as [st' Hst'];
    [eauto|].
  exists st'. split; [done|].
  apply applyMove_Returns in Hst' as (pl & b1 & b2 & _ & _ & _ & ->). simpl.
  destruct (Z.eqb_spec p 0), (Z.eqb_spec p 1), (Z.eqb_spec y 0),
    (Z.eqb_spec y 8); simpl; subst;
    repeat split; intros; try congruence; try lia; naive_solver.
Qed.

Lemma applyMove_winner_and_turn_witness :
  ∃ st', applyMove initialState 0 4 0 = Returns st'
    ∧ (winner st' = Some 0 ↔ 0 = 0 ∧ 0 = 0)
    ∧ (winner st' = Some 1 ↔ 0 = 1 ∧ 0 = 8)
    ∧ (¬ (0 = 0 ∧ 0 = 0) → ¬ (0 = 1 ∧ 0 = 8) → winner st' = None)
    ∧ (winner st' = None → currentPlayer st' = 1 - 0)
    ∧ (winner st' ≠ None → currentPlayer st' = currentPlayer initialState).
Proof.
  apply (applyMove_winner_and_turn initialState 0 4 0 (mkPlayer 1 4 8 10)).
  - reflexivity.
  - simpl. eexists; reflexivity.
  - simpl. eexists; reflexivity.
Defined.

(** ** applyWall *)

Lemma applyWall_Returns st wall st' :
  applyWall st wall = Returns st' ↔
  ∃ player,
    get_player st (currentPlayer st) = Returns player
    ∧ st' = {| board := board st;
               players := set_player (players st) (currentPlayer st)
                            (mkPlayer (p_id player) (p_x player) (p_y player)
                                      (p_walls player - 1));
               walls := walls st ++ [wall];
               currentPlayer := 1 - currentPlayer st;
               wallPreview := None;
               winner := winner st;
               selectedPlayer := selectedPlayer st;
               isWallMode := isWallMode st |}.
Proof.
  unfold applyWall. rewrite bind_Returns. unfold mret, outcome_ret.
  split; intros (pl & Hpl & Hst); exists pl; split; congruence.
Qed.

(** C5. With player 0 or 1 to move, [applyWall(state, wall)] returns a state
    whose walls are the input's with [wall] appended at the end, where the
    player to move has one wall less and is otherwise the same pawn, the turn
    goes to the other player, and the opponent (wall count included), the
    board and the winner are the input's; so are the selection and the wall
    mode of the page, whose pending wall preview is cleared. *)
Theorem applyWall_spec st wall :
  currentPlayer st = 0 ∨ currentPlayer st = 1 →
  ∃ st' actor,
    applyWall st wall = Returns st'
    ∧ get_player st (currentPlayer st) = Returns actor
    ∧ walls st' = walls st ++ [wall]
    ∧ get_player st' (currentPlayer st)
      = Returns (mkPlayer (p_id actor) (p_x actor) (p_y actor)
                          (p_walls actor - 1))
    ∧ get_player st' (1 - currentPlayer st)
      = get_player st (1 - currentPlayer st)
    ∧ currentPlayer st' = 1 - currentPlayer st
    ∧ board st' = board st
    ∧ winner st' = winner st
    ∧ selectedPlayer st' = selectedPlayer st
    ∧ isWallMode st' = isWallMode st
    ∧ wallPreview st' = None.
Proof.
  intros Hcp.
  destruct (get_player_total st _ Hcp) as [actor Hactor].
  eexists _, actor. split.
  { apply applyWall_Returns. exists actor. split; [done|reflexivity]. }
  split; [done|]. split; [reflexivity|].
  repeat split; destruct Hcp as [Hcp | Hcp]; rewrite Hcp; reflexivity.
Qed.

Lemma applyWall_spec_witness :
  ∃ st' actor,
    applyWall initialState (mkWall 4 4 Hor) = Returns st'
    ∧ get_player initialState 0 = Returns actor
    ∧ walls st' = [] ++ [mkWall 4 4 Hor]
    ∧ get_player st' 0
      = Returns (mkPlayer (p_id actor) (p_x actor) (p_y actor)
                          (p_walls actor - 1))
    ∧ get_player st' (1 - 0) = get_player initialState (1 - 0)
    ∧ currentPlayer st' = 1 - 0
    ∧ board st' = board initialState
    ∧ winner st' = winner initialState
    ∧ selectedPlayer st' = selectedPlayer initialState
    ∧ isWallMode st' = isWallMode initialState
    ∧ wallPreview st' = None.
Proof.
  apply (applyWall_spec initialState (mkWall 4 4 Hor)).
  left. reflexivity.
Defined.

(** ** isLegalWall: overlap rules *)

Lemma walls_overlap_conflicts wall ew :
  walls_overlap wall ew → wall_conflicts wall ew = true.
Proof.
  unfold walls_overlap, wall_conflicts.
  intros [[Hx Hy] | [Ho Hrest]].
  - rewrite Hx, Hy, !Z.eqb_refl. reflexivity.
  - apply orb_true_iff. right. rewrite Ho.
    destruct (w_orientation wall); destruct Hrest as [-> Habs];
      rewrite Z.eqb_refl; simpl; lia.
Qed.

Lemma wall_conflicts_overlap wall ew :
  wall_conflicts wall ew = true → walls_overlap wall ew.
Proof.
  unfold walls_overlap, wall_conflicts.
  intros [Hc | Hc]%orb_true_iff.
  - left. lia.
  - right. destruct (w_orientation wall), (w_orientation ew);
      try discriminate; split; try done; lia.
Qed.

Lemma isLegalWall_conflict st wall ew :
  ew ∈ walls st → wall_conflicts wall ew = true →
  isLegalWall st wall = Returns false.
Proof.
  intros Hin Hc. unfold isLegalWall.
  destruct (_ || _); [reflexivity|].
  assert (existsb (wall_conflicts wall) (walls st) = true) as ->;
    [|reflexivity].
  apply existsb_exists. exists ew. split; [|done].
  by apply list_elem_of_In.
Qed.

(** C4. [isLegalWall] returns false as soon as an existing wall sits on the
    candidate's intersection, or has the candidate's orientation, the same
    cross-axis coordinate and an along-axis coordinate at most 1 away; so a
    horizontal wall at (4,3) is rejected in every state that contains a
    horizontal wall at (3,3). *)
Theorem isLegalWall_rejects_overlap st :
  (∀ wall existingWall,
      existingWall ∈ walls st → walls_overlap wall existingWall →
      isLegalWall st wall = Returns false)
  ∧ (mkWall 3 3 Hor ∈ walls st →
     isLegalWall st (mkWall 4 3 Hor) = Returns false).
Proof.
  split.
  - intros wall ew Hin Hov.
    eapply isLegalWall_conflict; [done|]. by apply walls_overlap_conflicts.
  - intros Hin. eapply isLegalWall_conflict; [done|]. reflexivity.
Qed.

Lemma isLegalWall_rejects_overlap_witness :
  mkWall 3 3 Hor ∈ walls (with_walls initialState [mkWall 3 3 Hor])
  ∧ walls_overlap (mkWall 4 3 Hor) (mkWall 3 3 Hor)
  ∧ isLegalWall (with_walls initialState [mkWall 3 3 Hor]) (mkWall 4 3 Hor)
    = Returns false
  ∧ isLegalWall (with_walls initialState [mkWall 3 3 Hor]) (mkWall 3 3 Ver)
    = Returns false.
Proof.
  assert (Hin : mkWall 3 3 Hor
                ∈ walls (with_walls initialState [mkWall 3 3 Hor]))
    by (simpl; apply list_elem_of_here).
  assert (Hov : walls_overlap (mkWall 4 3 Hor) (mkWall 3 3 Hor))
    by (right; simpl; split; [reflexivity | lia]).
  split; [exact Hin|]. split; [exact Hov|]. split.
  - apply (proj2 (isLegalWall_rejects_overlap
                    (with_walls initialState [mkWall 3 3 Hor])) Hin).
  - apply (proj1 (isLegalWall_rejects_overlap
                    (with_walls initialState [mkWall 3 3 Hor]))
             (mkWall 3 3 Ver) (mkWall 3 3 Hor) Hin).
    left. simpl. split; reflexivity.
Defined.

(** ** Boards *)

Lemma bounds_cases (i : Z) :
  0 ≤ i < 9 →
  i = 0 ∨ i = 1 ∨ i = 2 ∨ i = 3 ∨ i = 4 ∨ i = 5 ∨ i = 6 ∨ i = 7 ∨ i = 8.
Proof. lia. Qed.

Lemma isWithinBounds_spec x y :
  isWithinBounds x y = true ↔ 0 ≤ x < 9 ∧ 0 ≤ y < 9.
Proof. unfold isWithinBounds. lia. Qed.

Ltac split_bounds Hb :=
  apply isWithinBounds_spec in Hb as [?Hi ?Hj];
  apply bounds_cases in Hi, Hj;
  destruct Hi as [->|[->|[->|[->|[->|[->|[->|[->| ->]]]]]]]];
  destruct Hj as [->|[->|[->|[->|[->|[->|[->|[->| ->]]]]]]]].

Lemma mk_board_length f : length (mk_board f) = 9%nat.
Proof. reflexivity. Qed.

Lemma cell_at_mk_board f i j :
  isWithinBounds i j = true → cell_at (mk_board f) i j = f i j.
Proof. intros Hb. split_bounds Hb; reflexivity. Qed.

Lemma board_set_mk_board f i j v :
  isWithinBounds i j = true →
  board_set (mk_board f) i j v
  = Returns (mk_board (λ i' j', if (i' =? i) && (j' =? j) then Some v
                                else f i' j')).
Proof. intros Hb. split_bounds Hb; reflexivity. Qed.

Lemma mk_board_ext f g :
  (∀ i j, isWithinBounds i j = true → f i j = g i j) →
  mk_board f = mk_board g.
Proof.
  intros Hfg. unfold mk_board.
  apply map_ext_in. intros i Hi%list_elem_of_In%elem_of_seqZ.
  apply map_ext_in. intros j Hj%list_elem_of_In%elem_of_seqZ.
  apply Hfg. apply isWithinBounds_spec. lia.
Qed.

Lemma board_get_cell_at b i j :
  is_Some (lookupZ b i) → board_get b i j = Returns (cell_at b i j).
Proof. intros [r Hr]. unfold board_get, cell_at. by rewrite Hr. Qed.

Lemma board_get_rows b i j :
  length b = 9%nat → isWithinBounds i j = true →
  board_get b i j = Returns (cell_at b i j).
Proof.
  intros Hlen [Hi _]%isWithinBounds_spec. apply board_get_cell_at.
  apply lookupZ_is_Some. lia.
Qed.

(** ** getAdjacentSquares *)

Lemma elem_of_getAdjacentSquares x y c :
  c ∈ getAdjacentSquares x y ↔
  isWithinBounds c.1 c.2 = true
  ∧ (c = (x, y - 1) ∨ c = (x, y + 1) ∨ c = (x - 1, y) ∨ c = (x + 1, y)).
Proof.
  unfold getAdjacentSquares, directions.
  rewrite list_elem_of_filter, list_elem_of_fmap.
  split.
  - intros [Hb (d & -> & Hd)]. split; [done|].
    repeat (apply elem_of_cons in Hd as [-> | Hd]); simpl;
      rewrite ?Z.add_0_r; auto.
    by apply elem_of_nil in Hd.
  - intros [Hb Hc]. split; [done|].
    destruct Hc as [-> | [-> | [-> | ->]]].
    + exists (0, -1). split; [simpl; f_equal; lia | set_solver].
    + exists (0, 1). split; [simpl; f_equal; lia | set_solver].
    + exists (-1, 0). split; [simpl; f_equal; lia | set_solver].
    + exists (1, 0). split; [simpl; f_equal; lia | set_solver].
Qed.

Lemma getAdjacentSquares_in_bounds x y c :
  c ∈ getAdjacentSquares x y → isWithinBounds c.1 c.2 = true.
Proof. rewrite elem_of_getAdjacentSquares. tauto. Qed.

Lemma getAdjacentSquares_not_self x y : (x, y) ∉ getAdjacentSquares x y.
Proof.
  rewrite elem_of_getAdjacentSquares. intros [_ Hc].
  destruct Hc as [Hc | [Hc | [Hc | Hc]]]; injection Hc; lia.
Qed.

Lemma getAdjacentSquares_length x y :
  (length (getAdjacentSquares x y) ≤ 4)%nat.
Proof.
  unfold getAdjacentSquares.
  etransitivity; [apply length_filter|]. reflexivity.
Qed.

Lemma getAdjacentSquares_NoDup x y : NoDup (getAdjacentSquares x y).
Proof.
  unfold getAdjacentSquares. apply NoDup_filter.
  apply NoDup_fmap_2_strong; [|by compute; repeat constructor; set_solver].
  intros [a1 b1] [a2 b2] _ _ Heq. injection Heq. intros. f_equal; lia.
Qed.

(** ** getLegalMoves *)

Lemma cell_is_zero_spec c : cell_is_zero c = true ↔ c = Some 0.
Proof.
  destruct c as [n|]; simpl; [|naive_solver].
  rewrite Z.eqb_eq. naive_solver.
Qed.

Lemma filterM_board b l :
  length b = 9%nat →
  (∀ s, s ∈ l → isWithinBounds s.1 s.2 = true) →
  filterM (λ s, cl ← board_get b s.1 s.2; mret (cell_is_zero cl)) l
  = Returns (filter (λ s, cell_is_zero (cell_at b s.1 s.2) = true) l).
Proof.
  intros Hlen. induction l as [|s l IH]; intros Hb; [reflexivity|].
  simpl. rewrite board_get_rows by (try done; apply Hb; left).
  simpl. rewrite IH by (intros; apply Hb; by right). simpl.
  rewrite filter_cons. unfold mret, outcome_ret.
  destruct (cell_is_zero _); by case_decide.
Qed.

Lemma foldM_append {A B} (f : list B → A → outcome (list B))
    (g : A → list B) (l : list A) (acc : list B) :
  (∀ acc' a, a ∈ l → f acc' a = Returns (acc' ++ g a)) →
  foldM f acc l = Returns (acc ++ (l ≫= g)).
Proof.
  revert acc. induction l as [|a l IH]; intros acc Hf; simpl.
  - by rewrite app_nil_r.
  - rewrite Hf by left. simpl. rewrite IH by (intros; apply Hf; by right).
    by rewrite app_assoc.
Qed.

Lemma legalMoves_step_rows st pl opp moves c :
  length (board st) = 9%nat → isWithinBounds c.1 c.2 = true →
  legalMoves_step st pl opp moves c = Returns (moves ++ moves_at st pl opp c).
Proof.
  intros Hlen Hb. destruct c as [x y]. unfold legalMoves_step, moves_at.
  simpl in *. case_bool_decide as Hc.
  - injection Hc as -> ->. rewrite !Z.eqb_refl. simpl.
    rewrite filterM_board;
      [reflexivity | done | apply getAdjacentSquares_in_bounds].
  - assert ((x =? p_x opp) && (y =? p_y opp) = false) as ->.
    { apply andb_false_iff.
      destruct (Z.eqb_spec x (p_x opp)), (Z.eqb_spec y (p_y opp));
        auto; congruence. }
    rewrite board_get_rows by done. simpl. unfold mret, outcome_ret.
    destruct (_ && _); [done | by rewrite app_nil_r].
Qed.

Lemma getLegalMoves_rows st p pl opp :
  length (board st) = 9%nat →
  get_player st p = Returns pl → get_player st (1 - p) = Returns opp →
  getLegalMoves st p
  = Returns (getAdjacentSquares (p_x pl) (p_y pl) ≫= moves_at st pl opp).
Proof.
  intros Hlen Hpl Hopp. unfold getLegalMoves. rewrite Hpl, Hopp. simpl.
  rewrite (foldM_append _ (moves_at st pl opp)); [reflexivity|].
  intros acc c Hc. apply legalMoves_step_rows; [done|].
  by eapply getAdjacentSquares_in_bounds.
Qed.

Lemma elem_of_moves_at st pl opp m :
  m ∈ getAdjacentSquares (p_x pl) (p_y pl) ≫= moves_at st pl opp
  ↔ legal_move st pl opp m.
Proof.
  rewrite list_elem_of_bind. unfold moves_at, legal_move. split.
  - intros ([x y] & Hm & Hc). simpl in Hm. case_bool_decide as Heq.
    + injection Heq as -> ->.
      apply list_elem_of_fmap in Hm as ([sx sy] & -> & Hs). simpl.
      apply list_elem_of_filter in Hs as [Hw Hs].
      apply list_elem_of_filter in Hs as [Hz Hs].
      apply cell_is_zero_spec in Hz. done.
    + destruct (cell_is_zero _) eqn:Hz; simpl in Hm;
        [|by apply elem_of_nil in Hm].
      destruct (isWallBlocking _ _ _ _ _) eqn:Hw; simpl in Hm;
        [by apply elem_of_nil in Hm|].
      apply list_elem_of_singleton in Hm as ->. simpl.
      apply cell_is_zero_spec in Hz. done.
  - destruct m as [mx my [|]]; simpl.
    + intros (Hadj & Hne & Hz & Hw). exists (mx, my). split; [|done].
      simpl. rewrite bool_decide_eq_false_2 by done.
      apply cell_is_zero_spec in Hz. rewrite Hz, Hw. simpl. left.
    + intros (Hopp & Hadj & Hz & Hw). exists (p_x opp, p_y opp).
      split; [|done]. rewrite bool_decide_eq_true_2 by done. simpl.
      apply list_elem_of_fmap. exists (mx, my). split; [done|].
      apply list_elem_of_filter. split; [done|].
      apply list_elem_of_filter. split; [|done].
      by apply cell_is_zero_spec.
Qed.

(** On a board with its nine rows [getLegalMoves] returns, and it offers
    exactly the moves described by [legal_move]. *)
Lemma getLegalMoves_spec st p pl opp :
  length (board st) = 9%nat →
  get_player st p = Returns pl → get_player st (1 - p) = Returns opp →
  ∃ moves, getLegalMoves st p = Returns moves
           ∧ ∀ m, m ∈ moves ↔ legal_move st pl opp m.
Proof.
  intros Hlen Hpl Hopp. eexists. split.
  - by apply getLegalMoves_rows.
  - intros m. apply elem_of_moves_at.
Qed.

(** ** Board occupancy across transitions *)

Lemma applyMove_on_board st p x y pl :
  board st = mk_board (expected_cell (players st)) →
  get_player st p = Returns pl →
  isWithinBounds (p_x pl) (p_y pl) = true →
  isWithinBounds x y = true →
  ∃ st', applyMove st p x y = Returns st'
    ∧ players st' = set_player (players st) p
                      (mkPlayer (p_id pl) x y (p_walls pl))
    ∧ board st'
      = mk_board (λ i j, if (i =? x) && (j =? y) then Some (p_id pl)
                         else if (i =? p_x pl) && (j =? p_y pl) then Some 0
                         else expected_cell (players st) i j).
Proof.
  intros Hboard Hpl Hbpl Hbxy. eexists. split.
  - apply applyMove_Returns. exists pl. eexists _, _.
    split; [done|]. rewrite Hboard.
    split; [by apply board_set_mk_board|].
    split; [by apply board_set_mk_board|]. reflexivity.
  - split; reflexivity.
Qed.

Lemma applyMove_keeps_occupancy st p x y pl opp :
  occupancy_matches st →
  get_player st p = Returns pl →
  get_player st (1 - p) = Returns opp →
  isWithinBounds x y = true →
  (x, y) ≠ (p_x opp, p_y opp) →
  ∃ st', applyMove st p x y = Returns st'
    ∧ occupancy_matches st'
    ∧ cell_at (board st') x y = Some (p_id pl)
    ∧ ((x, y) ≠ (p_x pl, p_y pl) →
       cell_at (board st') (p_x pl) (p_y pl) = Some 0).
Proof.
  intros (Hb0 & Hb1 & Hne & Hboard) Hpl Hopp Hbxy Hnopp.
  assert (isWithinBounds (p_x pl) (p_y pl) = true) as Hbpl.
  { apply get_player_Returns in Hpl as [[_ ->] | [_ ->]]; done. }
  destruct (applyMove_on_board st p x y pl Hboard Hpl Hbpl Hbxy)
    as (st' & Hst' & Hps' & Hb').
  exists st'. split; [done|].
  assert (cell_at (board st') x y = Some (p_id pl)) as Hdest.
  { rewrite Hb', cell_at_mk_board by done. by rewrite !Z.eqb_refl. }
  assert ((x, y) ≠ (p_x pl, p_y pl) →
          cell_at (board st') (p_x pl) (p_y pl) = Some 0) as Horig.
  { intros Hmoved. rewrite Hb', cell_at_mk_board by done.
    rewrite !Z.eqb_refl. simpl.
    destruct (Z.eqb_spec (p_x pl) x), (Z.eqb_spec (p_y pl) y);
      simpl; congruence. }
  split; [|done].
  unfold occupancy_matches. rewrite Hps', Hb'.
  destruct (players st) as [p0 p1] eqn:Hps. simpl in *.
  apply get_player_Returns in Hpl as [[-> ->] | [-> ->]];
    apply get_player_Returns in Hopp as [[Hp ->] | [Hp ->]];
    try discriminate Hp; rewrite Hps in *; simpl in *.
  - split; [done|]. split; [done|]. split; [congruence|].
    apply mk_board_ext. intros i j _.
    unfold expected_cell. simpl.
    destruct (Z.eqb_spec i x), (Z.eqb_spec j y),
      (Z.eqb_spec i (p_x p0)), (Z.eqb_spec j (p_y p0)),
      (Z.eqb_spec i (p_x p1)), (Z.eqb_spec j (p_y p1));
      simpl; congruence.
  - split; [done|]. split; [done|]. split; [congruence|].
    apply mk_board_ext. intros i j _.
    unfold expected_cell. simpl.
    destruct (Z.eqb_spec i x), (Z.eqb_spec j y),
      (Z.eqb_spec i (p_x p0)), (Z.eqb_spec j (p_y p0)),
      (Z.eqb_spec i (p_x p1)), (Z.eqb_spec j (p_y p1));
      simpl; congruence.
Qed.

Lemma applyWall_keeps_occupancy st wall :
  occupancy_matches st →
  currentPlayer st = 0 ∨ currentPlayer st = 1 →
  ∃ st', applyWall st wall = Returns st' ∧ occupancy_matches st'.
Proof.
  intros Hocc Hcp.
  destruct (get_player_total st _ Hcp) as [actor Hactor].
  eexists. split.
  { apply applyWall_Returns. exists actor. split; [done|reflexivity]. }
  destruct Hocc as (Hb0 & Hb1 & Hne & Hboard).
  unfold occupancy_matches. simpl.
  destruct (players st) as [p0 p1] eqn:Hps.
  apply get_player_Returns in Hactor as [[Hc ->] | [Hc ->]];
    rewrite Hc, Hps in *; simpl in *; repeat split; done.
Qed.

(** A move offered by [getLegalMoves] stays on the board and never lands on
    the opponent's cell. *)
Lemma legal_move_target st pl opp m :
  legal_move st pl opp m →
  isWithinBounds (m_x m) (m_y m) = true
  ∧ (m_x m, m_y m) ≠ (p_x opp, p_y opp).
Proof.
  unfold legal_move. destruct (m_type m).
  - intros (Hadj & Hne & _). split; [|done].
    by apply getAdjacentSquares_in_bounds in Hadj.
  - intros (_ & Hadj & _). split.
    + by apply getAdjacentSquares_in_bounds in Hadj.
    + intros Heq. rewrite Heq in Hadj.
      by apply getAdjacentSquares_not_self in Hadj.
Qed.

(** C7, as stated, fails: [applyMove] does not look at its destination, and
    moving player 0 from the initial position onto player 1's cell (4,0)
    leaves identifier 1 on the cell where pawn 2 still stands. *)
Lemma occupancy_broken_by_unchecked_move :
  occupancy_matches initialState
  ∧ ∃ st', applyMove initialState 0 4 0 = Returns st'
      ∧ (p_x (players st').2, p_y (players st').2) = (4, 0)
      ∧ p_id (players st').2 = 2
      ∧ cell_at (board st') 4 0 = Some 1
      ∧ ¬ occupancy_matches st'.
Proof.
  split; [apply initialState_occupancy|].
  eexists. split; [reflexivity|]. simpl.
  repeat split. intros (_ & _ & Hne & _). by apply Hne.
Qed.

(** C7, amended.  From a state whose board holds exactly the two pawns, on
    two different cells of the 9x9 grid: [applyWall] (player 0 or 1 to move)
    returns a state with the same property; so does [applyMove] to a cell of
    the board other than the opponent's, after which the destination holds
    the mover's identifier and the cell it left, if different, is empty; and
    every move offered by [getLegalMoves] is such a move. *)
Theorem transitions_keep_occupancy st :
  occupancy_matches st →
  (currentPlayer st = 0 ∨ currentPlayer st = 1 →
   ∀ wall, ∃ st', applyWall st wall = Returns st' ∧ occupancy_matches st')
  ∧ (∀ p x y pl opp,
       get_player st p = Returns pl →
       get_player st (1 - p) = Returns opp →
       isWithinBounds x y = true →
       (x, y) ≠ (p_x opp, p_y opp) →
       ∃ st', applyMove st p x y = Returns st'
         ∧ occupancy_matches st'
         ∧ cell_at (board st') x y = Some (p_id pl)
         ∧ ((x, y) ≠ (p_x pl, p_y pl) →
            cell_at (board st') (p_x pl) (p_y pl) = Some 0))
  ∧ (∀ p, p = 0 ∨ p = 1 →
       ∃ moves, getLegalMoves st p = Returns moves
         ∧ ∀ m, m ∈ moves →
             ∃ st', applyMove st p (m_x m) (m_y m) = Returns st'
                    ∧ occupancy_matches st').
Proof.
  intros Hocc. split; [|split].
  - intros Hcp wall. by apply applyWall_keeps_occupancy.
  - intros p x y pl opp. by apply applyMove_keeps_occupancy.
  - intros p Hp.
    destruct (get_player_total st p Hp) as [pl Hpl].
    destruct (get_player_total st (1 - p)) as [opp Hopp]; [lia|].
    assert (length (board st) = 9%nat) as Hlen.
    { destruct Hocc as (_ & _ & _ & ->). apply mk_board_length. }
    destruct (getLegalMoves_spec st p pl opp Hlen Hpl Hopp)
      as (moves & Hmoves & Hspec).
    exists moves. split; [done|]. intros m Hm%Hspec.
    apply legal_move_target in Hm as [Hb Hne].
    destruct (applyMove_keeps_occupancy st p (m_x m) (m_y m) pl opp)
      as (st' & Hst' & Hocc' & _); eauto.
Qed.

Lemma transitions_keep_occupancy_witness :
  (∃ st', applyWall initialState (mkWall 4 4 Hor) = Returns st'
          ∧ occupancy_matches st')
  ∧ (∃ st', applyMove initialState 0 4 7 = Returns st'
            ∧ occupancy_matches st'
            ∧ cell_at (board st') 4 7 = Some 1
            ∧ ((4, 7) ≠ (4, 8) → cell_at (board st') 4 8 = Some 0)).
Proof.
  destruct (transitions_keep_occupancy initialState initialState_occupancy)
    as (Hwall & Hmove & _).
  split.
  - apply Hwall. left. reflexivity.
  - apply (Hmove 0 4 7 (mkPlayer 1 4 8 10) (mkPlayer 2 4 0 10));
      [reflexivity | reflexivity | reflexivity | intros [=]].
Defined.

(** ** Jumps *)

Lemma occupancy_rows st : occupancy_matches st → length (board st) = 9%nat.
Proof. intros (_ & _ & _ & ->). apply mk_board_length. Qed.

Lemma occupancy_player_bounds st p pl :
  occupancy_matches st → get_player st p = Returns pl →
  isWithinBounds (p_x pl) (p_y pl) = true.
Proof.
  intros (Hb0 & Hb1 & _) [[_ ->] | [_ ->]]%get_player_Returns; done.
Qed.

Lemma occupancy_empty_cell st i j :
  occupancy_matches st → isWithinBounds i j = true →
  (i, j) ≠ (p_x (players st).1, p_y (players st).1) →
  (i, j) ≠ (p_x (players st).2, p_y (players st).2) →
  cell_at (board st) i j = Some 0.
Proof.
  intros (_ & _ & _ & ->) Hb H0 H1. rewrite cell_at_mk_board by done.
  unfold expected_cell.
  destruct (Z.eqb_spec i (p_x (players st).1)),
    (Z.eqb_spec j (p_y (players st).1)),
    (Z.eqb_spec i (p_x (players st).2)),
    (Z.eqb_spec j (p_y (players st).2)); simpl; congruence.
Qed.

Lemma elem_of_directions dx dy :
  (dx, dy) ∈ directions ↔
  (dx = 0 ∧ dy = -1) ∨ (dx = 0 ∧ dy = 1) ∨ (dx = -1 ∧ dy = 0)
  ∨ (dx = 1 ∧ dy = 0).
Proof.
  unfold directions. rewrite !elem_of_cons, elem_of_nil.
  split.
  - intros [[= -> ->] | [[= -> ->] | [[= -> ->] | [[= -> ->] | []]]]]; auto.
  - intros [[-> ->] | [[-> ->] | [[-> ->] | [-> ->]]]]; auto.
Qed.

Lemma step_in_direction x y dx dy :
  (dx, dy) ∈ directions → isWithinBounds (x + dx) (y + dy) = true →
  (x + dx, y + dy) ∈ getAdjacentSquares x y.
Proof.
  intros Hd Hb. apply elem_of_getAdjacentSquares. split; [done|].
  apply elem_of_directions in Hd
    as [[-> ->] | [[-> ->] | [[-> ->] | [-> ->]]]];
    rewrite ?Z.add_0_r; auto.
Qed.

(** C8. On a board that holds exactly the two pawns, when the opponent
    stands on the cell next to the acting pawn in some direction and the
    square one more step in that direction is on the board and not walled
    off from the opponent's cell, [getLegalMoves] offers that square as a
    jump, and it never offers the opponent's own square (with any kind). *)
Theorem jump_over_adjacent_opponent st p pl opp dx dy :
  occupancy_matches st →
  get_player st p = Returns pl →
  get_player st (1 - p) = Returns opp →
  (dx, dy) ∈ directions →
  (p_x opp, p_y opp) = (p_x pl + dx, p_y pl + dy) →
  isWithinBounds (p_x opp + dx) (p_y opp + dy) = true →
  isWallBlocking st (p_x opp) (p_y opp) (p_x opp + dx) (p_y opp + dy)
    = false →
  ∃ moves, getLegalMoves st p = Returns moves
    ∧ cell_at (board st) (p_x opp + dx) (p_y opp + dy) = Some 0
    ∧ mkMove (p_x opp + dx) (p_y opp + dy) jump ∈ moves
    ∧ ∀ kind, mkMove (p_x opp) (p_y opp) kind ∉ moves.
Proof.
  intros Hocc Hpl Hopp Hd Hadj Hland Hwall.
  destruct (getLegalMoves_spec st p pl opp (occupancy_rows st Hocc) Hpl Hopp)
    as (moves & Hmoves & Hspec).
  exists moves. split; [done|].
  pose proof (occupancy_player_bounds st _ _ Hocc Hopp) as Hbopp.
  assert (cell_at (board st) (p_x opp + dx) (p_y opp + dy) = Some 0)
    as Hempty.
  { injection Hadj as Hx Hy.
    apply elem_of_directions in Hd.
    apply occupancy_empty_cell; try done;
      apply get_player_Returns in Hpl as [[_ ->] | [_ ->]];
      apply get_player_Returns in Hopp as [[Hp ->] | [Hp ->]];
      intros [= ? ?]; lia. }
  split; [done|]. split.
  - apply Hspec. unfold legal_move. simpl.
    split; [|split; [|done]].
    + rewrite Hadj. apply step_in_direction; [done|].
      injection Hadj as <- <-. done.
    + by apply step_in_direction.
  - intros kind Hin%Hspec. apply legal_move_target in Hin as [_ Hne].
    by apply Hne.
Qed.

Lemma jump_over_adjacent_opponent_witness :
  ∃ moves, getLegalMoves facing_state 0 = Returns moves
    ∧ cell_at (board facing_state) (4 + 0) (4 + -1) = Some 0
    ∧ mkMove (4 + 0) (4 + -1) jump ∈ moves
    ∧ ∀ kind, mkMove 4 4 kind ∉ moves.
Proof.
  apply (jump_over_adjacent_opponent facing_state 0
           (mkPlayer 1 4 5 10) (mkPlayer 2 4 4 10) 0 (-1)).
  - unfold occupancy_matches, facing_state; simpl.
    repeat split; congruence.
  - reflexivity.
  - reflexivity.
  - apply elem_of_directions. left. split; reflexivity.
  - reflexivity.
  - reflexivity.
  - reflexivity.
Defined.

(** C10. When the opponent stands on a square adjacent to the acting pawn
    (and the board has its nine rows), the jumps [getLegalMoves] offers are
    exactly the empty orthogonal neighbours of the opponent that no wall
    separates from the opponent's cell: whether a wall lies between the two
    pawns plays no role, and the neighbours beside the opponent count as
    much as the square straight beyond it. *)
Theorem jump_ignores_wall_between_pawns st p pl opp :
  length (board st) = 9%nat →
  get_player st p = Returns pl →
  get_player st (1 - p) = Returns opp →
  (p_x opp, p_y opp) ∈ getAdjacentSquares (p_x pl) (p_y pl) →
  ∃ moves, getLegalMoves st p = Returns moves
    ∧ ∀ sx sy,
        mkMove sx sy jump ∈ moves ↔
        (sx, sy) ∈ getAdjacentSquares (p_x opp) (p_y opp)
        ∧ cell_at (board st) sx sy = Some 0
        ∧ isWallBlocking st (p_x opp) (p_y opp) sx sy = false.
Proof.
  intros Hlen Hpl Hopp Hadj.
  destruct (getLegalMoves_spec st p pl opp Hlen Hpl Hopp)
    as (moves & Hmoves & Hspec).
  exists moves. split; [done|]. intros sx sy.
  rewrite Hspec. unfold legal_move. simpl. tauto.
Qed.

Lemma jump_ignores_wall_between_pawns_witness :
  isWallBlocking separated_state 4 5 4 4 = true
  ∧ ∃ moves, getLegalMoves separated_state 0 = Returns moves
    ∧ ∀ sx sy,
        mkMove sx sy jump ∈ moves ↔
        (sx, sy) ∈ getAdjacentSquares 4 4
        ∧ cell_at (board separated_state) sx sy = Some 0
        ∧ isWallBlocking separated_state 4 4 sx sy = false.
Proof.
  split; [reflexivity|].
  apply (jump_ignores_wall_between_pawns separated_state 0
           (mkPlayer 1 4 5 10) (mkPlayer 2 4 4 10)).
  - reflexivity.
  - reflexivity.
  - reflexivity.
  - apply elem_of_getAdjacentSquares. split; [reflexivity|].
    left. reflexivity.
Defined.

(** With the wall between the pawns, player 0 is still offered the three
    jumps around player 1, the side squares included. *)
Lemma separated_state_moves :
  getLegalMoves separated_state 0
  = Returns [mkMove 4 3 jump; mkMove 3 4 jump; mkMove 5 4 jump;
             mkMove 4 6 normal; mkMove 3 5 normal; mkMove 5 5 normal].
Proof. reflexivity. Qed.

(** ** Wall counts along approved play *)

Lemma play_step_sound guard st a st' :
  play_step guard st a = Returns st' → approved_step guard st a st'.
Proof.
  unfold play_step. destruct (guard st a) eqn:Hguard; [|discriminate].
  destruct a as [p x y | wall].
  - intros (moves & Hmoves & Happ)%bind_Returns.
    case_bool_decide; [|discriminate]. by econstructor.
  - intros ([|] & Hlegal & Happ)%bind_Returns; [|discriminate].
    by constructor.
Qed.

Lemma play_reachable guard acts : ∀ st st' n0 n1,
  play guard st acts = Returns st' →
  reachable guard n0 n1 st →
  ∃ n0' n1', reachable guard n0' n1' st'.
Proof.
  unfold play. induction acts as [|a acts IH]; intros st st' n0 n1; simpl.
  - intros [= <-] Hr. eauto.
  - intros (st1 & Hstep%play_step_sound & Hrest)%bind_Returns Hr.
    destruct a as [p x y | wall].
    + eapply IH; [done|]. by eapply reach_move.
    + eapply IH; [done|]. by eapply reach_wall.
Qed.

Lemma approved_step_mono (g1 g2 : State → Action → bool) st a st' :
  (∀ s b, g1 s b = true → g2 s b = true) →
  approved_step g1 st a st' → approved_step g2 st a st'.
Proof.
  intros Hg Hstep. destruct Hstep; [econstructor | constructor]; eauto.
Qed.

Lemma reachable_mono (g1 g2 : State → Action → bool) n0 n1 st :
  (∀ s b, g1 s b = true → g2 s b = true) →
  reachable g1 n0 n1 st → reachable g2 n0 n1 st.
Proof.
  intros Hg Hr. induction Hr.
  - constructor.
  - eapply reach_move; [done|]. by eapply approved_step_mono.
  - eapply reach_wall; [done|]. by eapply approved_step_mono.
Qed.

(** Whatever the caller's own test, the wall counts record the placements:
    a move leaves both counts as they are and a placement takes exactly one
    wall from the player to move. *)
Lemma reachable_wall_counts guard n0 n1 st :
  reachable guard n0 n1 st →
  (currentPlayer st = 0 ∨ currentPlayer st = 1)
  ∧ 0 ≤ n0 ∧ 0 ≤ n1
  ∧ p_walls (players st).1 = 10 - n0
  ∧ p_walls (players st).2 = 10 - n1.
Proof.
  induction 1 as [| n0 n1 st p x y st' Hr IH Hstep
                  | n0 n1 st wall st' Hr IH Hstep].
  - simpl. lia.
  - destruct IH as (Hcp & Hn0 & Hn1 & Hw0 & Hw1).
    inversion Hstep as [? ? ? ? moves ? _ _ _ Happ |]; subst.
    apply applyMove_Returns in Happ as (pl & b1 & b2 & Hpl & _ & _ & ->).
    apply get_player_Returns in Hpl as [[-> ->] | [-> ->]]; simpl;
      (split; [repeat case_match; lia | done]).
  - destruct IH as (Hcp & Hn0 & Hn1 & Hw0 & Hw1).
    inversion Hstep as [| ? ? ? _ _ Happ]; subst.
    apply applyWall_Returns in Happ as (pl & Hpl & ->).
    apply get_player_Returns in Hpl as [[Hc ->] | [Hc ->]];
      simpl in *; rewrite Hc in *; simpl in *; lia.
Qed.

(** C6, as stated, fails: [isLegalWall] does not look at wall counts and
    [applyWall] decrements without a test, so play approved by the legality
    queries alone (even in turn, with no winner declared) reaches a state
    where player 0 has placed eleven walls and holds -1. *)
Lemma eleventh_wall_goes_negative :
  ∃ st,
    play in_turn initialState eleven_walls = Returns st
    ∧ reachable in_turn 11 0 st
    ∧ reachable queries_only 11 0 st
    ∧ p_walls (players st).1 = -1.
Proof.
  assert (∃ st, play in_turn initialState eleven_walls = Returns st
                ∧ p_walls (players st).1 = -1
                ∧ p_walls (players st).2 = 10) as (st & Hplay & Hw0 & Hw1).
  { eexists. split; [vm_compute; reflexivity|]. split; reflexivity. }
  destruct (play_reachable in_turn eleven_walls _ _ 0 0 Hplay
              (reach_init _)) as (n0 & n1 & Hr).
  pose proof (reachable_wall_counts _ _ _ _ Hr) as (_ & _ & _ & H0 & H1).
  assert (n0 = 11) as -> by lia. assert (n1 = 0) as -> by lia.
  exists st. split; [done|]. split; [done|]. split; [|done].
  eapply reachable_mono; [|done]. done.
Qed.

(** C6, amended.  In every state reached from the initial state by
    transitions approved by the legality queries, where a wall is placed only
    while the player to move has a wall left (the test the driver makes
    before it calls [applyWall]), each wall count is 10 minus the number of
    walls that player has placed, and is never negative. *)
Theorem wall_counts_never_negative n0 n1 st :
  reachable walls_left n0 n1 st →
  0 ≤ n0 ∧ 0 ≤ n1
  ∧ p_walls (players st).1 = 10 - n0
  ∧ p_walls (players st).2 = 10 - n1
  ∧ 0 ≤ p_walls (players st).1
  ∧ 0 ≤ p_walls (players st).2.
Proof.
  intros Hr.
  pose proof (reachable_wall_counts _ _ _ _ Hr) as (_ & Hn0 & Hn1 & H0 & H1).
  do 4 (split; [done|]).
  clear Hn0 Hn1 H0 H1.
  induction Hr as [| n0 n1 st p x y st' Hr IH Hstep
                   | n0 n1 st wall st' Hr IH Hstep].
  - simpl. lia.
  - inversion Hstep as [? ? ? ? moves ? _ _ _ Happ |]; subst.
    apply applyMove_Returns in Happ as (pl & b1 & b2 & Hpl & _ & _ & ->).
    apply get_player_Returns in Hpl as [[-> ->] | [-> ->]]; simpl in *; done.
  - inversion Hstep as [| ? ? ? Hguard _ Happ]; subst.
    apply applyWall_Returns in Happ as (pl & Hpl & ->).
    unfold walls_left in Hguard. rewrite Hpl in Hguard.
    apply get_player_Returns in Hpl as [[Hc ->] | [Hc ->]];
      simpl in *; rewrite Hc in *; simpl in *; lia.
Qed.

Lemma wall_counts_never_negative_witness :
  ∃ st, applyWall initialState (mkWall 4 4 Hor) = Returns st
    ∧ reachable walls_left 1 0 st
    ∧ 0 ≤ 1 ∧ 0 ≤ 0
    ∧ p_walls (players st).1 = 10 - 1
    ∧ p_walls (players st).2 = 10 - 0
    ∧ 0 ≤ p_walls (players st).1
    ∧ 0 ≤ p_walls (players st).2.
Proof.
  eexists. split; [reflexivity|].
  assert (reachable walls_left 1 0
            {| board := board initialState;
               players := (mkPlayer 1 4 8 9, mkPlayer 2 4 0 10);
               walls := [mkWall 4 4 Hor];
               currentPlayer := 1;
               wallPreview := None;
               winner := None;
               selectedPlayer := None;
               isWallMode := false |}) as Hr.
  { apply (reach_wall walls_left 0 0 initialState (mkWall 4 4 Hor)).
    - apply reach_init.
    - apply approved_wall; reflexivity. }
  split; [exact Hr|].
  exact (wall_counts_never_negative 1 0 _ Hr).
Defined.

(** ** The driver after a win *)

(** When player 1 has won, [state.winner] is the truthy number 1 and the
    three click handlers leave the state as it is. *)
Lemma handlers_closed_after_player1_wins st x y :
  winner st = Some 1 →
  handleSquareClick st x y = Returns st
  ∧ handleWallClick st x y = Returns st
  ∧ handleWallRightClick st x y = Returns st.
Proof.
  intros Hw. unfold handleSquareClick, handleWallClick, handleWallRightClick.
  rewrite Hw. simpl. by destruct (wallPreview st).
Qed.

(** The handlers test [state.winner] for truthiness, and the winner 0 is
    falsy: for them a state won by player 0 is an open game. *)
Lemma truthy_winner_0 : truthy (Some 0) = false ∧ truthy (Some 1) = true.
Proof. split; reflexivity. Qed.

(** C3 fails on the code for a win of player 0.  In the game
    [winning_game], played through the click handlers, player 0 reaches
    (4,0) and [winner] becomes 0.  The handlers then still accept
    transitions: two more clicks move player 0 back to (4,1), which also
    erases the winner and hands the turn to player 1; or, from the won
    state, a wall is placed at (4,4). *)
Theorem won_by_player0_still_accepts_transitions :
  ∃ st, run_driver winning_game = Returns st
    ∧ winner st = Some 0
    ∧ players st = (mkPlayer 1 4 0 10, mkPlayer 2 3 0 10)
    ∧ (∃ st', foldM handle st (click_move 4 0 4 1) = Returns st'
         ∧ players st' = (mkPlayer 1 4 1 10, mkPlayer 2 3 0 10)
         ∧ winner st' = None
         ∧ currentPlayer st' = 1)
    ∧ (∃ st', foldM handle st
                [ToggleWallMode; WallClick 4 4; WallRightClick 4 4]
              = Returns st'
         ∧ walls st' = [mkWall 4 4 Hor]
         ∧ players st' = (mkPlayer 1 4 0 9, mkPlayer 2 3 0 10)
         ∧ winner st' = Some 0).
Proof.
  eexists. split; [vm_compute; reflexivity|].
  split; [reflexivity|]. split; [reflexivity|]. split.
  - eexists. split; [vm_compute; reflexivity|]. repeat split.
  - eexists. split; [vm_compute; reflexivity|]. repeat split.
Qed.

(** ** hasPathToGoal: the search finds a path exactly when there is one *)

Section bfs.
Variable st : State.
Variable goalY : Z.
Variable start : Z * Z.

Lemma elem_of_pushed visited x y a :
  a ∈ pushed st visited x y ↔ (a ∉ visited) ∧ open_step st (x, y) a.
Proof.
  unfold pushed, open_step. rewrite list_elem_of_filter. simpl. tauto.
Qed.

Lemma pushed_length visited x y : (length (pushed st visited x y) ≤ 4)%nat.
Proof.
  unfold pushed. etransitivity; [apply length_filter|].
  apply getAdjacentSquares_length.
Qed.

(** Soundness: everything in the queue is reachable, so a goal cell taken
    from it is the end of a path. *)
Lemma bfs_loop_sound fuel : ∀ visited queue,
  (∀ c, c ∈ queue → rtc (open_step st) start c) →
  bfs_loop fuel st goalY visited queue = Returns true →
  path_to_row st start goalY.
Proof.
  induction fuel as [|fuel IH]; intros visited queue Hq; simpl;
    [discriminate|].
  destruct queue as [|[x y] rest]; [discriminate|].
  case_decide as Hvis.
  - apply IH. intros c Hc. apply Hq. by right.
  - destruct (Z.eqb_spec y goalY) as [Hy|Hy].
    + intros _. exists (x, y). split; [apply Hq; left | done].
    + apply IH. intros c [Hc | Hc]%elem_of_app.
      * apply Hq. by right.
      * apply elem_of_pushed in Hc as [_ Hstep].
        eapply rtc_r; [apply Hq; left | done].
Qed.

(** Completeness rests on the invariant [bfs_inv]. *)
Lemma bfs_inv_closed visited c :
  bfs_inv st goalY start visited [] → rtc (open_step st) start c → c ∈ visited.
Proof.
  intros (Hstart & _ & Hclosed) Hrtc.
  eapply (rtc_ind_r (λ c, c ∈ visited)); [| |exact Hrtc].
  - destruct Hstart as [|Hnil]; [done | by apply elem_of_nil in Hnil].
  - intros a b _ Hab IH. destruct (Hclosed _ _ IH Hab) as [|Hnil];
      [done | by apply elem_of_nil in Hnil].
Qed.

Lemma bfs_loop_complete fuel : ∀ visited queue,
  bfs_inv st goalY start visited queue →
  bfs_loop fuel st goalY visited queue = Returns false →
  ¬ path_to_row st start goalY.
Proof.
  induction fuel as [|fuel IH]; intros visited queue Hinv; simpl;
    [discriminate|].
  destruct queue as [|[x y] rest].
  - intros _ (c & Hrtc & Hgoal).
    pose proof (bfs_inv_closed _ _ Hinv Hrtc) as Hc.
    destruct Hinv as (_ & Hnogoal & _). by apply (Hnogoal c).
  - destruct Hinv as (Hstart & Hnogoal & Hclosed).
    case_decide as Hvis.
    + apply IH. split; [|split; [done|]].
      * destruct Hstart as [|[->|]%elem_of_cons]; auto.
      * intros c d Hc Hcd.
        destruct (Hclosed c d Hc Hcd) as [|[->|]%elem_of_cons]; auto.
    + destruct (Z.eqb_spec y goalY) as [Hy|Hy]; [discriminate|].
      apply IH. split; [|split].
      * destruct Hstart as [|[->|]%elem_of_cons];
          [left | left | right]; set_solver.
      * intros c [Hc | ->%elem_of_singleton]%elem_of_union; auto.
      * intros c d [Hc | ->%elem_of_singleton]%elem_of_union Hcd.
        -- destruct (Hclosed c d Hc Hcd) as [|[->|]%elem_of_cons];
             [left | left | right]; set_solver.
        -- destruct (decide (d ∈ visited ∪ {[(x, y)]})) as [|Hnew];
             [by left | right].
           apply elem_of_app. right. by apply elem_of_pushed.
Qed.

Lemma elem_of_board_cells c :
  c ∈ board_cells ↔ isWithinBounds c.1 c.2 = true.
Proof.
  unfold board_cells. rewrite elem_of_list_to_set, list_elem_of_bind.
  rewrite isWithinBounds_spec. split.
  - intros (i & (j & -> & Hj%elem_of_seqZ)%list_elem_of_fmap
              & Hi%elem_of_seqZ). simpl. lia.
  - intros [Hi Hj]. exists c.1. split; [|apply elem_of_seqZ; lia].
    apply list_elem_of_fmap. exists c.2.
    split; [by destruct c | apply elem_of_seqZ; lia].
Qed.

Lemma universe_size : (size (universe start) ≤ 82)%nat.
Proof.
  unfold universe. rewrite size_union_alt, size_singleton.
  assert (size (board_cells ∖ {[start]}) ≤ size board_cells)%nat
    by (apply subseteq_size; set_solver).
  assert (size board_cells = 81%nat) by (by vm_compute).
  lia.
Qed.

(** Termination: an iteration either drops a queue entry or marks a new
    cell and pushes at most four squares; the marked cells stay inside any
    set [cells] that holds the queued cells and the cells of the board. *)
Lemma bfs_loop_terminates (cells : gset (Z * Z)) fuel : ∀ visited queue,
  (∀ c, isWithinBounds c.1 c.2 = true → c ∈ cells) →
  visited ⊆ cells →
  (∀ c, c ∈ queue → c ∈ cells) →
  (5 * size (cells ∖ visited) + length queue < fuel)%nat →
  ∃ b, bfs_loop fuel st goalY visited queue = Returns b.
Proof.
  induction fuel as [|fuel IH]; intros visited queue Hboard Hsub Hq Hfuel;
    [lia|]. simpl.
  destruct queue as [|[x y] rest]; [eauto|].
  case_decide as Hvis.
  - apply IH; [done | done | intros; apply Hq; by right
               | simpl in Hfuel; lia].
  - destruct (y =? goalY); [eauto|].
    assert ((x, y) ∈ cells) as Hxy by (apply Hq; left).
    apply IH; [done | ..].
    + set_solver.
    + intros c [Hc | Hc]%elem_of_app; [apply Hq; by right|].
      apply elem_of_pushed in Hc as [_ [Hadj _]].
      apply Hboard. by eapply getAdjacentSquares_in_bounds.
    + assert (size (cells ∖ (visited ∪ {[(x, y)]}))
              < size (cells ∖ visited))%nat.
      { apply subset_size. set_solver. }
      rewrite length_app.
      pose proof (pushed_length (visited ∪ {[(x, y)]}) x y) as Hpush.
      simpl in Hfuel. fold (pushed st (visited ∪ {[(x, y)]}) x y). lia.
Qed.

Lemma bfs_loop_from_start_returns :
  ∃ b, bfs_loop bfs_fuel st goalY ∅ [start] = Returns b.
Proof.
  apply (bfs_loop_terminates (universe start)).
  - intros c Hc. apply elem_of_union. right. by apply elem_of_board_cells.
  - apply empty_subseteq.
  - intros c ->%list_elem_of_singleton.
    apply elem_of_union. left. by apply elem_of_singleton.
  - assert (size (universe start ∖ ∅) ≤ size (universe start))%nat
      by (apply subseteq_size, subseteq_difference_l; reflexivity).
    pose proof universe_size. unfold bfs_fuel. cbn [length]. lia.
Qed.

Lemma bfs_loop_from_start_spec :
  bfs_loop bfs_fuel st goalY ∅ [start] = Returns true
  ↔ path_to_row st start goalY.
Proof.
  split.
  - apply bfs_loop_sound. intros c ->%list_elem_of_singleton. done.
  - intros Hpath.
    destruct bfs_loop_from_start_returns as [[|] Hb]; [exact Hb|].
    exfalso. eapply bfs_loop_complete; [|exact Hb|exact Hpath].
    split; [right; left | split].
    + intros c Hc. by apply not_elem_of_empty in Hc.
    + intros c d Hc. by apply not_elem_of_empty in Hc.
Qed.
End bfs.

Lemma hasPathToGoal_unfold st p pl :
  get_player st p = Returns pl →
  hasPathToGoal st p
  = bfs_loop bfs_fuel st (goal_row p) ∅ [(p_x pl, p_y pl)].
Proof. intros Hpl. unfold hasPathToGoal. rewrite Hpl. reflexivity. Qed.

Lemma hasPathToGoal_returns st p :
  p = 0 ∨ p = 1 → ∃ b, hasPathToGoal st p = Returns b.
Proof.
  intros Hp. destruct (get_player_total st p Hp) as [pl Hpl].
  rewrite (hasPathToGoal_unfold st p pl Hpl).
  apply bfs_loop_from_start_returns.
Qed.

Lemma hasPathToGoal_spec st p pl :
  get_player st p = Returns pl →
  hasPathToGoal st p = Returns true
  ↔ path_to_row st (p_x pl, p_y pl) (goal_row p).
Proof.
  intros Hpl. rewrite (hasPathToGoal_unfold st p pl Hpl).
  apply bfs_loop_from_start_spec.
Qed.

Lemma hasPathToGoal_false st p pl :
  get_player st p = Returns pl →
  hasPathToGoal st p = Returns false
  ↔ ¬ path_to_row st (p_x pl, p_y pl) (goal_row p).
Proof.
  intros Hpl. rewrite <- (hasPathToGoal_spec st p pl Hpl).
  destruct (hasPathToGoal_returns st p) as [[|] Hb].
  - apply get_player_Returns in Hpl. tauto.
  - rewrite Hb. split; [discriminate | congruence].
  - rewrite Hb. split; [discriminate | done].
Qed.

(** ** isLegalWall: the path rule *)

(** C1. [isLegalWall(state, wall)] always returns, and it returns true only
    if, with the candidate added after the existing walls, the search of
    [hasPathToGoal] succeeds for player 0 and for player 1 - that is, only if
    each pawn can reach its goal row (row 0 for player 0, row 8 for player
    1) from its position by steps between adjacent cells of the 9x9 grid
    that no wall, existing or candidate, blocks, pawns not counting as
    obstacles.  If the search fails for either player, or either player has
    no such path, it returns false. *)
Theorem isLegalWall_requires_paths st wall :
  let tempState := with_walls st (walls st ++ [wall]) in
  let pos0 := (p_x (players st).1, p_y (players st).1) in
  let pos1 := (p_x (players st).2, p_y (players st).2) in
  ∃ legal, isLegalWall st wall = Returns legal
    ∧ (legal = true →
       hasPathToGoal tempState 0 = Returns true
       ∧ hasPathToGoal tempState 1 = Returns true
       ∧ path_to_row tempState pos0 0
       ∧ path_to_row tempState pos1 8)
    ∧ (hasPathToGoal tempState 0 = Returns false
       ∨ hasPathToGoal tempState 1 = Returns false → legal = false)
    ∧ (¬ path_to_row tempState pos0 0 ∨ ¬ path_to_row tempState pos1 8 →
       legal = false).
Proof.
  intros tempState pos0 pos1.
  assert (get_player tempState 0 = Returns (players st).1) as Hp0
    by reflexivity.
  assert (get_player tempState 1 = Returns (players st).2) as Hp1
    by reflexivity.
  pose proof (hasPathToGoal_spec tempState 0 _ Hp0) as Hspec0.
  pose proof (hasPathToGoal_spec tempState 1 _ Hp1) as Hspec1.
  pose proof (hasPathToGoal_false tempState 0 _ Hp0) as Hno0.
  pose proof (hasPathToGoal_false tempState 1 _ Hp1) as Hno1.
  change (goal_row 0) with 0 in *. change (goal_row 1) with 8 in *.
  fold pos0 in Hspec0, Hno0. fold pos1 in Hspec1, Hno1.
  destruct (hasPathToGoal_returns tempState 0) as [b0 Hb0]; [by left|].
  destruct (hasPathToGoal_returns tempState 1) as [b1 Hb1]; [by right|].
  unfold isLegalWall. fold tempState.
  destruct (_ || _ || _ || _).
  { exists false. split; [done|]. split; [discriminate|]. done. }
  destruct (existsb _ _).
  { exists false. split; [done|]. split; [discriminate|]. done. }
  rewrite Hb0. simpl. destruct b0.
  - rewrite Hb1. exists b1. split; [done|]. split; [|split].
    + intros ->. repeat split; tauto.
    + intros [Hf | Hf]; congruence.
    + intros [Hn | Hn].
      * apply Hno0 in Hn. congruence.
      * apply Hno1 in Hn. congruence.
  - exists false. split; [done|]. split; [discriminate|]. done.
Qed.

Lemma isLegalWall_requires_paths_witness :
  isLegalWall initialState (mkWall 4 4 Hor) = Returns true
  ∧ path_to_row (with_walls initialState [mkWall 4 4 Hor]) (4, 8) 0
  ∧ path_to_row (with_walls initialState [mkWall 4 4 Hor]) (4, 0) 8.
Proof.
  destruct (isLegalWall_requires_paths initialState (mkWall 4 4 Hor))
    as (legal & Hret & Htrue & _).
  assert (legal = true) as Hlegal
    by (vm_compute in Hret; congruence).
  split; [by rewrite Hret, Hlegal|].
  destruct (Htrue Hlegal) as (_ & _ & H0 & H1). split; assumption.
Defined.

(** Path preservation on a sample: with vertical walls at (4,8) and (5,8)
    on both sides of player 0's start, the horizontal wall at (4,7) would
    close the box against the board edge, and it is rejected; the same wall
    is accepted on the empty board. *)
Lemma isLegalWall_sealing_wall_rejected :
  isLegalWall (with_walls initialState [mkWall 4 8 Ver; mkWall 5 8 Ver])
              (mkWall 4 7 Hor) = Returns false
  ∧ isLegalWall initialState (mkWall 4 7 Hor) = Returns true.
Proof. split; vm_compute; reflexivity. Qed.

(** ** Wall counts under the driver *)

Lemma applyMove_counts st p x y st' :
  counts_in_range st → applyMove st p x y = Returns st' →
  counts_in_range st'.
Proof.
  intros (Hcp & H0 & H1)
    (pl & b1 & b2 & Hpl & _ & _ & ->)%applyMove_Returns.
  unfold counts_in_range. simpl.
  apply get_player_Returns in Hpl as [[-> ->] | [-> ->]]; simpl;
    (split; [repeat case_match; lia | done]).
Qed.

Lemma applyWall_counts st wall st' pl :
  counts_in_range st →
  get_player st (currentPlayer st) = Returns pl → 0 < p_walls pl →
  applyWall st wall = Returns st' →
  counts_in_range st'.
Proof.
  intros (Hcp & H0 & H1) Hpl Hleft (pl' & Hpl' & ->)%applyWall_Returns.
  rewrite Hpl in Hpl'. injection Hpl' as <-.
  unfold counts_in_range. simpl.
  apply get_player_Returns in Hpl as [[Hc ->] | [Hc ->]];
    rewrite Hc in *; simpl in *; lia.
Qed.

Lemma handle_counts st g st' :
  counts_in_range st → handle st g = Returns st' → counts_in_range st'.
Proof.
  intros Hinv. destruct g as [x y | x y | x y | | |]; simpl.
  - unfold handleSquareClick.
    destruct (_ || _ || _); [by intros [= <-]|].
    intros (pl & Hpl & Hrest)%bind_Returns.
    apply bind_Returns in Hrest as (opp & Hopp & Hrest).
    destruct (_ && _); [by injection Hrest as <-|].
    case_bool_decide; [|by injection Hrest as <-].
    apply bind_Returns in Hrest as (moves & Hmoves & Hrest).
    destruct (find_move x y moves).
    + by eapply applyMove_counts.
    + destruct (_ || _); by injection Hrest as <-.
  - unfold handleWallClick.
    destruct (_ || _); [by intros [= <-]|].
    case_bool_decide; [by intros [= <-]|].
    intros (pl & Hpl & Hrest)%bind_Returns.
    destruct (_ <=? _); [by injection Hrest as <-|].
    destruct (wallPreview st) as [wp|];
      [destruct (_ && _)|]; by injection Hrest as <-.
  - unfold handleWallRightClick.
    destruct (wallPreview st) as [wp|]; [|by intros [= <-]].
    destruct (_ || _); [by intros [= <-]|].
    case_bool_decide; [by intros [= <-]|].
    intros (pl & Hpl & Hrest)%bind_Returns.
    destruct (Z.leb_spec (p_walls pl) 0); [by injection Hrest as <-|].
    destruct (_ && _); [|by injection Hrest as <-].
    apply bind_Returns in Hrest as ([|] & Hlegal & Hrest);
      [|by injection Hrest as <-].
    apply bind_Returns in Hrest as (st1 & Happ & [= <-]).
    by eapply (applyWall_counts st wp st1 pl).
  - by intros [= <-].
  - unfold handleEscape. destruct (isWallMode st); by intros [= <-].
  - rewrite createInitialState_eq. intros [= <-].
    unfold counts_in_range. simpl. lia.
Qed.

(** Whatever is clicked, the driver never lets a wall count leave 0..10:
    [handleWallRightClick] returns before [applyWall] when the player to
    move has no wall left. *)
Lemma driver_counts_in_range gs st :
  run_driver gs = Returns st → counts_in_range st.
Proof.
  unfold run_driver. rewrite createInitialState_eq. simpl.
  assert (counts_in_range initialState) as Hinit
    by (unfold counts_in_range; simpl; lia).
  revert Hinit. generalize initialState as st0.
  induction gs as [|g gs IH]; intros st0 Hinv; simpl.
  - by intros [= <-].
  - intros (st1 & Hg & Hrest)%bind_Returns.
    eapply IH; [|done]. by eapply handle_counts.
Qed.

(** ** A short game *)

(** From the initial state player 0 steps to (4,7), a normal move that
    [getLegalMoves] offers; player 1 then places a horizontal wall at (4,4),
    which [isLegalWall] accepts.  Player 0 is to move again and player 1
    holds nine walls. *)
Example opening_moves :
  getLegalMoves initialState 0
  = Returns [mkMove 4 7 normal; mkMove 3 8 normal; mkMove 5 8 normal]
  ∧ ∃ st, play in_turn initialState
               [MovePawn 0 4 7; PlaceWall (mkWall 4 4 Hor)] = Returns st
      ∧ currentPlayer st = 0
      ∧ players st = (mkPlayer 1 4 7 10, mkPlayer 2 4 0 9)
      ∧ walls st = [mkWall 4 4 Hor]
      ∧ winner st = None
      ∧ occupancy_matches st.
Proof.
  split; [reflexivity|].
  eexists. split; [vm_compute; reflexivity|].
  repeat split; simpl; congruence.
Qed.

(** * Further properties of the engine *)

(** ** Geometry *)

(** X1. The squares [getAdjacentSquares] returns are cells of the board at
    one orthogonal step from [(x, y)], all different, never [(x, y)] itself
    and at most four; and between two cells of the board adjacency goes both
    ways. *)
Theorem getAdjacentSquares_neighbours x y :
  (∀ c, c ∈ getAdjacentSquares x y →
        isWithinBounds c.1 c.2 = true ∧ unit_step (x, y) c ∧ c ≠ (x, y))
  ∧ NoDup (getAdjacentSquares x y)
  ∧ (length (getAdjacentSquares x y) ≤ 4)%nat
  ∧ (∀ c, isWithinBounds x y = true →
          c ∈ getAdjacentSquares x y → (x, y) ∈ getAdjacentSquares c.1 c.2)
  ∧ (∀ c, isWithinBounds c.1 c.2 = true → unit_step (x, y) c →
          c ∈ getAdjacentSquares x y).
Proof.
  split; [|split; [|split; [|split]]].
  - intros c Hc. split; [by eapply getAdjacentSquares_in_bounds|].
    split.
    + apply elem_of_getAdjacentSquares in Hc as [_ Hc]. unfold unit_step.
      destruct Hc as [-> | [-> | [-> | ->]]]; simpl; lia.
    + intros ->. by apply getAdjacentSquares_not_self in Hc.
  - apply getAdjacentSquares_NoDup.
  - apply getAdjacentSquares_length.
  - intros [cx cy] Hb Hc. apply elem_of_getAdjacentSquares in Hc as [_ Hc].
    apply elem_of_getAdjacentSquares. split; [done|]. simpl.
    destruct Hc as [[= -> ->] | [[= -> ->] | [[= -> ->] | [= -> ->]]]];
      [right; left | left | do 3 right | do 2 right; left]; f_equal; lia.
  - intros [cx cy] Hb Hstep. apply elem_of_getAdjacentSquares.
    split; [done|]. unfold unit_step in Hstep. simpl in *.
    assert ((cx = x ∧ cy = y - 1) ∨ (cx = x ∧ cy = y + 1)
            ∨ (cx = x - 1 ∧ cy = y) ∨ (cx = x + 1 ∧ cy = y))
      as [[-> ->] | [[-> ->] | [[-> ->] | [-> ->]]]] by lia; auto.
Qed.

Lemma getAdjacentSquares_neighbours_witness :
  (4, 7) ∈ getAdjacentSquares 4 8 ∧ (4, 8) ∈ getAdjacentSquares 4 7.
Proof.
  destruct (getAdjacentSquares_neighbours 4 8) as (_ & _ & _ & Hsym & Hin).
  assert ((4, 7) ∈ getAdjacentSquares 4 8) as H47.
  { apply Hin; [reflexivity | unfold unit_step; simpl; lia]. }
  split; [exact H47|]. apply (Hsym (4, 7)); [reflexivity | exact H47].
Defined.

(** ** isWallBlocking *)

Lemma isWallBlocking_walls st fx fy tx ty :
  isWallBlocking st fx fy tx ty = true ↔
  ∃ w, w ∈ walls st
       ∧ wall_blocks (Z.min fx tx) (Z.max fx tx) (Z.min fy ty)
                     (Z.max fy ty) w = true.
Proof.
  unfold isWallBlocking. rewrite existsb_exists.
  split; intros (w & Hin & Hw); exists w; split; try done;
    by apply list_elem_of_In.
Qed.

Lemma isWallBlocking_sym st fx fy tx ty :
  isWallBlocking st fx fy tx ty = isWallBlocking st tx ty fx fy.
Proof.
  unfold isWallBlocking.
  by rewrite (Z.min_comm fx), (Z.max_comm fx), (Z.min_comm fy),
    (Z.max_comm fy).
Qed.

Lemma wall_blocks_cuts w a b :
  unit_step a b →
  wall_blocks (Z.min a.1 b.1) (Z.max a.1 b.1) (Z.min a.2 b.2)
              (Z.max a.2 b.2) w = true
  ↔ wall_cuts w a b.
Proof.
  unfold unit_step, wall_blocks, wall_cuts.
  destruct a as [ax ay], b as [bx by']. simpl.
  destruct (w_orientation w); intros Hstep; split; lia.
Qed.

(** X2. Blocking does not depend on the direction of travel: the step from
    one square to another is blocked exactly when the step back is. *)
Theorem isWallBlocking_symmetric st fromX fromY toX toY :
  isWallBlocking st fromX fromY toX toY
  = isWallBlocking st toX toY fromX fromY.
Proof. apply isWallBlocking_sym. Qed.

(** X3. A step of length one is blocked exactly when one of the placed walls
    lies across it: a horizontal wall at [(wx, wy)] cuts the vertical steps
    between the rows [wy - 1] and [wy] in the columns [wx - 1] and [wx], a
    vertical wall the horizontal steps between the columns [wx - 1] and [wx]
    in the rows [wy - 1] and [wy].  A horizontal wall never blocks a
    horizontal step, nor a vertical wall a vertical one. *)
Theorem isWallBlocking_unit_step st a b :
  unit_step a b →
  isWallBlocking st a.1 a.2 b.1 b.2 = true
  ↔ ∃ w, w ∈ walls st ∧ wall_cuts w a b.
Proof.
  intros Hstep. rewrite isWallBlocking_walls.
  split; intros (w & Hin & Hw); exists w; split; try done;
    by apply (wall_blocks_cuts w a b Hstep).
Qed.

Lemma isWallBlocking_unit_step_witness :
  isWallBlocking separated_state 4 5 4 4 = true
  ↔ ∃ w, w ∈ walls separated_state ∧ wall_cuts w (4, 5) (4, 4).
Proof.
  apply (isWallBlocking_unit_step separated_state (4, 5) (4, 4)).
  unfold unit_step. simpl. lia.
Defined.

Lemma isWallBlocking_app st ws ws' fx fy tx ty :
  isWallBlocking (with_walls st (ws ++ ws')) fx fy tx ty
  = isWallBlocking (with_walls st ws) fx fy tx ty
    || isWallBlocking (with_walls st ws') fx fy tx ty.
Proof. unfold isWallBlocking. simpl. apply existsb_app. Qed.

Lemma isWallBlocking_ext st st' fx fy tx ty :
  walls st = walls st' →
  isWallBlocking st fx fy tx ty = isWallBlocking st' fx fy tx ty.
Proof. unfold isWallBlocking. by intros ->. Qed.

Lemma isWallBlocking_subset st st' fx fy tx ty :
  (∀ w, w ∈ walls st → w ∈ walls st') →
  isWallBlocking st fx fy tx ty = true →
  isWallBlocking st' fx fy tx ty = true.
Proof.
  intros Hsub. rewrite !isWallBlocking_walls.
  intros (w & Hin & Hw). exists w. auto.
Qed.

(** ** getLegalMoves: what is offered *)

Lemma filterM_Returns_sub {A} (f : A → outcome bool) (l r : list A) :
  filterM f l = Returns r → ∀ a, a ∈ r → a ∈ l.
Proof.
  revert r. induction l as [|a l IH]; intros r; simpl.
  - intros [= <-]. done.
  - intros (b & _ & Hrest)%bind_Returns.
    apply bind_Returns in Hrest as (r' & Hr' & [= <-]).
    intros a' Ha'. destruct b.
    + apply elem_of_cons in Ha' as [-> | Ha']; [left | right; eauto].
    + right. eauto.
Qed.

Lemma foldM_inv {A B} (P : B → Prop) (f : B → A → outcome B) (l : list A) :
  ∀ acc r,
    P acc →
    (∀ acc0 a acc1, a ∈ l → P acc0 → f acc0 a = Returns acc1 → P acc1) →
    foldM f acc l = Returns r → P r.
Proof.
  induction l as [|a l IH]; intros acc r Hacc Hstep; simpl.
  - by intros [= <-].
  - intros (acc1 & Hf & Hrest)%bind_Returns.
    eapply IH; [|intros; eapply Hstep; [by right|done..]|done].
    eapply Hstep; [left|done..].
Qed.

Lemma legalMoves_step_targets st pl opp moves c moves' :
  c ∈ getAdjacentSquares (p_x pl) (p_y pl) →
  (∀ m, m ∈ moves →
        isWithinBounds (m_x m) (m_y m) = true
        ∧ (m_x m, m_y m) ≠ (p_x opp, p_y opp)) →
  legalMoves_step st pl opp moves c = Returns moves' →
  ∀ m, m ∈ moves' →
       isWithinBounds (m_x m) (m_y m) = true
       ∧ (m_x m, m_y m) ≠ (p_x opp, p_y opp).
Proof.
  intros Hc Hmoves. destruct c as [x y]. unfold legalMoves_step.
  destruct (Z.eqb_spec x (p_x opp)) as [->|Hx];
    [destruct (Z.eqb_spec y (p_y opp)) as [->|Hy]|]; simpl.
  - intros (jm & Hjm & [= <-])%bind_Returns m [Hm | Hm]%elem_of_app;
      [by apply Hmoves|].
    apply list_elem_of_fmap in Hm as (s & -> & Hs). simpl.
    apply list_elem_of_filter in Hs as [_ Hs].
    apply (filterM_Returns_sub _ _ _ Hjm) in Hs.
    split; [by eapply getAdjacentSquares_in_bounds|].
    intros Heq. destruct s as [sx sy]. simpl in Heq. injection Heq as -> ->.
    by apply getAdjacentSquares_not_self in Hs.
  - intros (cl & _ & [= <-])%bind_Returns m Hm.
    destruct (_ && _); [|by apply Hmoves].
    apply elem_of_app in Hm as [Hm | ->%list_elem_of_singleton];
      [by apply Hmoves|]. simpl.
    split; [by apply getAdjacentSquares_in_bounds in Hc | congruence].
  - intros (cl & _ & [= <-])%bind_Returns m Hm.
    destruct (_ && _); [|by apply Hmoves].
    apply elem_of_app in Hm as [Hm | ->%list_elem_of_singleton];
      [by apply Hmoves|]. simpl.
    split; [by apply getAdjacentSquares_in_bounds in Hc | congruence].
Qed.

(** X4. Whatever the state, every move [getLegalMoves] returns has its
    target on the 9x9 board, and no returned move targets the square of the
    opponent. *)
Theorem getLegalMoves_targets_on_board st p moves opp :
  getLegalMoves st p = Returns moves →
  get_player st (1 - p) = Returns opp →
  ∀ m, m ∈ moves →
       0 ≤ m_x m < 9 ∧ 0 ≤ m_y m < 9
       ∧ (m_x m, m_y m) ≠ (p_x opp, p_y opp).
Proof.
  unfold getLegalMoves.
  intros (pl & Hpl & Hrest)%bind_Returns Hopp.
  rewrite Hopp in Hrest. simpl in Hrest.
  intros m Hm.
  assert (isWithinBounds (m_x m) (m_y m) = true
          ∧ (m_x m, m_y m) ≠ (p_x opp, p_y opp)) as [Hb Hne].
  { revert m Hm.
    eapply (foldM_inv (λ ms, ∀ m, m ∈ ms →
              isWithinBounds (m_x m) (m_y m) = true
              ∧ (m_x m, m_y m) ≠ (p_x opp, p_y opp))); [| |exact Hrest].
    - intros m Hm. by apply elem_of_nil in Hm.
    - intros acc0 c acc1 Hc Hacc0 Hstep.
      by eapply legalMoves_step_targets. }
  apply isWithinBounds_spec in Hb. tauto.
Qed.

Lemma getLegalMoves_targets_on_board_witness :
  mkMove 4 7 normal
    ∈ [mkMove 4 7 normal; mkMove 3 8 normal; mkMove 5 8 normal]
  ∧ 0 ≤ 4 < 9 ∧ 0 ≤ 7 < 9 ∧ (4, 7) ≠ (4, 0).
Proof.
  assert (mkMove 4 7 normal
            ∈ [mkMove 4 7 normal; mkMove 3 8 normal; mkMove 5 8 normal])
    as Hin by left.
  split; [exact Hin|].
  apply (getLegalMoves_targets_on_board initialState 0
           [mkMove 4 7 normal; mkMove 3 8 normal; mkMove 5 8 normal]
           (mkPlayer 2 4 0 10) eq_refl eq_refl (mkMove 4 7 normal) Hin).
Defined.

(** X5. On a board that holds exactly the two pawns, with non-zero pawn
    identifiers, every move [getLegalMoves] returns lands on an empty cell,
    which is neither pawn's square. *)
Theorem getLegalMoves_targets_empty st p moves :
  occupancy_matches st →
  p_id (players st).1 ≠ 0 → p_id (players st).2 ≠ 0 →
  getLegalMoves st p = Returns moves →
  ∀ m, m ∈ moves →
       cell_at (board st) (m_x m) (m_y m) = Some 0
       ∧ (m_x m, m_y m) ≠ (p_x (players st).1, p_y (players st).1)
       ∧ (m_x m, m_y m) ≠ (p_x (players st).2, p_y (players st).2).
Proof.
  intros Hocc Hid0 Hid1 Hmoves m Hm.
  assert (∃ pl, get_player st p = Returns pl) as [pl Hpl].
  { unfold getLegalMoves in Hmoves.
    apply bind_Returns in Hmoves as (pl & Hpl & _). eauto. }
  assert (∃ opp, get_player st (1 - p) = Returns opp) as [opp Hopp].
  { apply get_player_total.
    apply get_player_Returns in Hpl as [[-> _] | [-> _]]; lia. }
  destruct (getLegalMoves_spec st p pl opp (occupancy_rows st Hocc) Hpl Hopp)
    as (moves' & Hmoves' & Hspec).
  rewrite Hmoves in Hmoves'. injection Hmoves' as <-.
  apply Hspec in Hm.
  assert (cell_at (board st) (m_x m) (m_y m) = Some 0) as Hempty.
  { unfold legal_move in Hm. destruct (m_type m); tauto. }
  split; [done|].
  destruct Hocc as (Hb0 & Hb1 & _ & Hboard).
  split; intros [= Hx Hy]; rewrite Hboard, Hx, Hy in Hempty;
    rewrite cell_at_mk_board in Hempty by done;
    unfold expected_cell in Hempty; rewrite ?Z.eqb_refl in Hempty;
    simpl in Hempty.
  - congruence.
  - destruct (_ && _); congruence.
Qed.

Lemma getLegalMoves_targets_empty_witness :
  getLegalMoves facing_state 0
  = Returns [mkMove 4 3 jump; mkMove 3 4 jump; mkMove 5 4 jump;
             mkMove 4 6 normal; mkMove 3 5 normal; mkMove 5 5 normal]
  ∧ cell_at (board facing_state) 4 3 = Some 0
  ∧ (4, 3) ≠ (4, 5) ∧ (4, 3) ≠ (4, 4).
Proof.
  split; [reflexivity|].
  refine (getLegalMoves_targets_empty facing_state 0
            [mkMove 4 3 jump; mkMove 3 4 jump; mkMove 5 4 jump;
             mkMove 4 6 normal; mkMove 3 5 normal; mkMove 5 5 normal]
            _ _ _ eq_refl (mkMove 4 3 jump) _).
  - unfold occupancy_matches, facing_state; simpl.
    repeat split; congruence.
  - simpl. lia.
  - simpl. lia.
  - left.
Defined.

(** X6. On a board with its nine rows, a normal move offered to a pawn is
    one orthogonal step that no wall blocks; a jump is offered only when the
    opponent stands one orthogonal step away, and it ends one further step
    from the opponent's square that no wall blocks. *)
Theorem getLegalMoves_steps st p pl opp moves :
  length (board st) = 9%nat →
  get_player st p = Returns pl →
  get_player st (1 - p) = Returns opp →
  getLegalMoves st p = Returns moves →
  ∀ m, m ∈ moves →
    match m_type m with
    | normal =>
        unit_step (p_x pl, p_y pl) (m_x m, m_y m)
        ∧ isWallBlocking st (p_x pl) (p_y pl) (m_x m) (m_y m) = false
    | jump =>
        unit_step (p_x pl, p_y pl) (p_x opp, p_y opp)
        ∧ unit_step (p_x opp, p_y opp) (m_x m, m_y m)
        ∧ isWallBlocking st (p_x opp) (p_y opp) (m_x m) (m_y m) = false
    end.
Proof.
  intros Hlen Hpl Hopp Hmoves m Hm.
  destruct (getLegalMoves_spec st p pl opp Hlen Hpl Hopp)
    as (moves' & Hmoves' & Hspec).
  rewrite Hmoves in Hmoves'. injection Hmoves' as <-.
  apply Hspec in Hm. unfold legal_move in Hm.
  pose proof (elem_of_getAdjacentSquares (p_x pl) (p_y pl)) as Hadj_pl.
  pose proof (elem_of_getAdjacentSquares (p_x opp) (p_y opp)) as Hadj_opp.
  unfold unit_step. destruct (m_type m); simpl.
  - destruct Hm as (Hadj & _ & _ & Hw). split; [|done].
    apply Hadj_pl in Hadj as [_ Hc].
    destruct Hc as [[= -> ->] | [[= -> ->] | [[= -> ->] | [= -> ->]]]]; lia.
  - destruct Hm as (Hadj1 & Hadj2 & _ & Hw).
    apply Hadj_pl in Hadj1 as [_ Hc1]. apply Hadj_opp in Hadj2 as [_ Hc2].
    split; [|split; [|done]].
    + destruct Hc1 as [[= -> ->] | [[= -> ->] | [[= -> ->] | [= -> ->]]]];
        lia.
    + destruct Hc2 as [[= -> ->] | [[= -> ->] | [[= -> ->] | [= -> ->]]]];
        lia.
Qed.

Lemma getLegalMoves_steps_witness :
  unit_step (4, 5) (4, 4)
  ∧ unit_step (4, 4) (3, 4)
  ∧ isWallBlocking separated_state 4 4 3 4 = false.
Proof.
  apply (getLegalMoves_steps separated_state 0 (mkPlayer 1 4 5 10)
           (mkPlayer 2 4 4 10)
           [mkMove 4 3 jump; mkMove 3 4 jump; mkMove 5 4 jump;
            mkMove 4 6 normal; mkMove 3 5 normal; mkMove 5 5 normal]
           eq_refl eq_refl eq_refl eq_refl (mkMove 3 4 jump)).
  right. left.
Defined.

(** ** Paths *)

Lemma open_step_subset st st' a b :
  (∀ w, w ∈ walls st' → w ∈ walls st) →
  open_step st a b → open_step st' a b.
Proof.
  intros Hsub [Hadj Hw]. split; [done|].
  destruct (isWallBlocking st' a.1 a.2 b.1 b.2) eqn:Hb; [|done].
  apply (isWallBlocking_subset st' st) in Hb; [congruence | done].
Qed.

Lemma open_step_sym st a b :
  isWithinBounds a.1 a.2 = true → open_step st a b → open_step st b a.
Proof.
  intros Ha [Hadj Hw]. split.
  - apply elem_of_getAdjacentSquares in Hadj as [_ Hb].
    apply elem_of_getAdjacentSquares. split; [done|].
    destruct a as [ax ay], b as [bx by']. simpl in *.
    destruct Hb as [[= -> ->] | [[= -> ->] | [[= -> ->] | [= -> ->]]]];
      [right; left | left | do 3 right | do 2 right; left]; f_equal; lia.
  - by rewrite isWallBlocking_sym.
Qed.

Lemma open_step_target st a b :
  open_step st a b → isWithinBounds b.1 b.2 = true.
Proof. intros [Hadj _]. by eapply getAdjacentSquares_in_bounds. Qed.

Lemma rtc_open_step_subset st st' a b :
  (∀ w, w ∈ walls st' → w ∈ walls st) →
  rtc (open_step st) a b → rtc (open_step st') a b.
Proof.
  intros Hsub. apply rtc_subrel. intros c d. by apply open_step_subset.
Qed.

Lemma rtc_open_step_sym st a b :
  isWithinBounds a.1 a.2 = true →
  rtc (open_step st) a b → rtc (open_step st) b a.
Proof.
  intros Ha Hrtc. induction Hrtc as [a | a c b Hac Hcb IH]; [done|].
  eapply rtc_r.
  - apply IH. by eapply open_step_target.
  - by apply open_step_sym.
Qed.

Lemma path_to_row_subset st st' start goalY :
  (∀ w, w ∈ walls st' → w ∈ walls st) →
  path_to_row st start goalY → path_to_row st' start goalY.
Proof.
  intros Hsub (c & Hrtc & Hc). exists c. split; [|done].
  by eapply rtc_open_step_subset.
Qed.

Lemma path_to_row_from st a b goalY :
  rtc (open_step st) a b → path_to_row st b goalY → path_to_row st a goalY.
Proof.
  intros Hab (c & Hbc & Hc). exists c. split; [|done]. by etransitivity.
Qed.

(** X7. [hasPathToGoal] decides path existence.  For player index 0 or 1 it
    returns, and the result is true exactly when some cell of the player's
    goal row (row 0 for player 0, row 8 for player 1) can be reached from the
    pawn's square by steps between adjacent board cells that no wall blocks;
    in particular it is true for a pawn standing on its goal row, whatever
    the walls.  For any other index it throws. *)
Theorem hasPathToGoal_decides_paths st p :
  (p ≠ 0 → p ≠ 1 → hasPathToGoal st p = Throws)
  ∧ (∀ pl, get_player st p = Returns pl →
       ∃ b, hasPathToGoal st p = Returns b
         ∧ (b = true ↔ path_to_row st (p_x pl, p_y pl) (goal_row p))
         ∧ (p_y pl = goal_row p → b = true)).
Proof.
  split.
  - intros H0 H1. unfold hasPathToGoal, get_player.
    destruct (Z.eqb_spec p 0); [done|]. destruct (Z.eqb_spec p 1); done.
  - intros pl Hpl.
    pose proof (hasPathToGoal_spec st p pl Hpl) as Hspec.
    destruct (hasPathToGoal_returns st p) as [b Hb].
    { apply get_player_Returns in Hpl. tauto. }
    exists b. split; [exact Hb|].
    assert (b = true ↔ path_to_row st (p_x pl, p_y pl) (goal_row p)) as Hiff.
    { rewrite <- Hspec, Hb. split; congruence. }
    split; [exact Hiff|].
    intros Hgoal. apply Hiff. exists (p_x pl, p_y pl).
    split; [apply rtc_refl | exact Hgoal].
Qed.

Lemma hasPathToGoal_decides_paths_witness :
  ∃ b, hasPathToGoal initialState 0 = Returns b
    ∧ (b = true ↔ path_to_row initialState (4, 8) (goal_row 0))
    ∧ (8 = goal_row 0 → b = true).
Proof.
  apply (proj2 (hasPathToGoal_decides_paths initialState 0)
           (mkPlayer 1 4 8 10)).
  reflexivity.
Defined.

Lemma hasPathToGoal_subset st st' p :
  players st = players st' →
  (∀ w, w ∈ walls st' → w ∈ walls st) →
  hasPathToGoal st p = Returns true →
  hasPathToGoal st' p = Returns true.
Proof.
  intros Hps Hsub Htrue.
  assert (∃ pl, get_player st p = Returns pl) as [pl Hpl].
  { unfold hasPathToGoal in Htrue.
    apply bind_Returns in Htrue as (pl & Hpl & _). eauto. }
  assert (get_player st' p = Returns pl) as Hpl'.
  { apply get_player_Returns. rewrite <- Hps.
    by apply get_player_Returns. }
  apply (hasPathToGoal_spec st' p pl Hpl').
  apply (path_to_row_subset st st'); [exact Hsub|].
  by apply (hasPathToGoal_spec st p pl Hpl).
Qed.

(** X8. Walls can only close paths: between two states with the same pawns,
    if the search succeeds in the one whose wall list contains every wall of
    the other, it succeeds in the other as well. *)
Theorem hasPathToGoal_fewer_walls st st' p :
  players st = players st' →
  (∀ w, w ∈ walls st' → w ∈ walls st) →
  hasPathToGoal st p = Returns true →
  hasPathToGoal st' p = Returns true.
Proof. apply hasPathToGoal_subset. Qed.

Lemma hasPathToGoal_fewer_walls_witness :
  hasPathToGoal initialState 0 = Returns true.
Proof.
  apply (hasPathToGoal_fewer_walls
           (with_walls initialState [mkWall 4 4 Hor]) initialState 0).
  - reflexivity.
  - intros w Hw. simpl in Hw. by apply elem_of_nil in Hw.
  - vm_compute. reflexivity.
Defined.

(** ** isLegalWall: the whole test *)

Lemma isLegalWall_returns st wall : ∃ b, isLegalWall st wall = Returns b.
Proof.
  unfold isLegalWall.
  destruct (_ || _ || _ || _); [eauto|].
  destruct (existsb _ _); [eauto|].
  destruct (hasPathToGoal_returns (with_walls st (walls st ++ [wall])) 0)
    as [b0 Hb0]; [by left|].
  destruct (hasPathToGoal_returns (with_walls st (walls st ++ [wall])) 1)
    as [b1 Hb1]; [by right|].
  rewrite Hb0. cbn [mbind outcome_bind]. destruct b0; [|eauto].
  rewrite Hb1. eauto.
Qed.

Lemma isLegalWall_true_iff st wall :
  isLegalWall st wall = Returns true ↔
  (1 ≤ w_x wall ≤ 8 ∧ 1 ≤ w_y wall ≤ 8)
  ∧ (∀ ew, ew ∈ walls st → wall_conflicts wall ew = false)
  ∧ hasPathToGoal (with_walls st (walls st ++ [wall])) 0 = Returns true
  ∧ hasPathToGoal (with_walls st (walls st ++ [wall])) 1 = Returns true.
Proof.
  unfold isLegalWall.
  destruct (_ || _ || _ || _) eqn:Hrange.
  { split; [discriminate|]. intros [Hr _]. exfalso. lia. }
  assert (1 ≤ w_x wall ≤ 8 ∧ 1 ≤ w_y wall ≤ 8) as Hr by lia.
  destruct (existsb _ _) eqn:Hex.
  { split; [discriminate|]. intros (_ & Hno & _). exfalso.
    apply existsb_exists in Hex as (ew & Hin%list_elem_of_In & Hc).
    rewrite (Hno ew Hin) in Hc. discriminate. }
  assert (∀ ew, ew ∈ walls st → wall_conflicts wall ew = false) as Hno.
  { intros ew Hin%list_elem_of_In.
    destruct (wall_conflicts wall ew) eqn:Hc; [|reflexivity].
    exfalso. assert (existsb (wall_conflicts wall) (walls st) = true) as He
      by (apply existsb_exists; eauto).
    rewrite He in Hex. discriminate. }
  destruct (hasPathToGoal_returns (with_walls st (walls st ++ [wall])) 0)
    as [b0 Hb0]; [by left|].
  destruct (hasPathToGoal_returns (with_walls st (walls st ++ [wall])) 1)
    as [b1 Hb1]; [by right|].
  rewrite Hb0, Hb1. cbn [mbind outcome_bind].
  destruct b0, b1; split; try discriminate; try (intros _; tauto);
    intros (_ & _ & H0 & H1); discriminate.
Qed.

(** X9. [isLegalWall] always returns, and it accepts a wall exactly when
    all four rules hold: the intersection lies in 1..8 x 1..8; no placed
    wall sits on the same intersection; no placed wall of the same
    orientation lies on the same track at most one unit away; and with the
    wall added each pawn can still reach its goal row. *)
Theorem isLegalWall_accepts_iff st wall :
  let tempState := with_walls st (walls st ++ [wall]) in
  ∃ legal, isLegalWall st wall = Returns legal
    ∧ (legal = true ↔
       (1 ≤ w_x wall ≤ 8 ∧ 1 ≤ w_y wall ≤ 8)
       ∧ (∀ ew, ew ∈ walls st → ¬ walls_overlap wall ew)
       ∧ path_to_row tempState
           (p_x (players st).1, p_y (players st).1) 0
       ∧ path_to_row tempState
           (p_x (players st).2, p_y (players st).2) 8).
Proof.
  intros tempState.
  destruct (isLegalWall_returns st wall) as [legal Hret].
  exists legal. split; [exact Hret|].
  pose proof (isLegalWall_true_iff st wall) as Hiff.
  fold tempState in Hiff. rewrite Hret in Hiff.
  pose proof (hasPathToGoal_spec tempState 0 (players st).1 eq_refl) as H0.
  pose proof (hasPathToGoal_spec tempState 1 (players st).2 eq_refl) as H1.
  change (goal_row 0) with 0 in H0. change (goal_row 1) with 8 in H1.
  rewrite <- H0, <- H1.
  assert ((∀ ew, ew ∈ walls st → ¬ walls_overlap wall ew)
          ↔ (∀ ew, ew ∈ walls st → wall_conflicts wall ew = false)) as Hov.
  { split; intros Hno ew Hin.
    - destruct (wall_conflicts wall ew) eqn:Hc; [|reflexivity].
      exfalso. apply (Hno ew Hin). by apply wall_conflicts_overlap.
    - intros Hc%walls_overlap_conflicts. rewrite (Hno ew Hin) in Hc.
      discriminate. }
  rewrite Hov.
  split.
  - intros ->. by apply Hiff.
  - intros Hall. apply Hiff in Hall. congruence.
Qed.

Lemma isLegalWall_accepts_iff_witness :
  isLegalWall initialState (mkWall 9 4 Hor) = Returns false.
Proof.
  destruct (isLegalWall_accepts_iff initialState (mkWall 9 4 Hor))
    as (legal & Hret & Hiff).
  rewrite Hret. destruct legal; [|reflexivity].
  exfalso. destruct (proj1 Hiff eq_refl) as [Hrange _].
  simpl in Hrange. lia.
Defined.

(** X10. [isLegalWall] reads the wall list and the pawns only, and placed
    walls never make a candidate legal: between two states with the same
    pawns, a wall accepted in the state whose wall list contains every wall
    of the other is accepted in the other as well. *)
Theorem isLegalWall_fewer_walls st st' wall :
  players st = players st' →
  (∀ w, w ∈ walls st' → w ∈ walls st) →
  isLegalWall st wall = Returns true →
  isLegalWall st' wall = Returns true.
Proof.
  intros Hps Hsub. rewrite !isLegalWall_true_iff.
  intros (Hrange & Hno & H0 & H1).
  assert (∀ w, w ∈ walls (with_walls st' (walls st' ++ [wall])) →
               w ∈ walls (with_walls st (walls st ++ [wall]))) as Hsub'.
  { simpl. intros w [Hw | Hw]%elem_of_app; apply elem_of_app; auto. }
  split; [done|]. split; [auto|]. split.
  - by apply (hasPathToGoal_subset
                (with_walls st (walls st ++ [wall]))).
  - by apply (hasPathToGoal_subset
                (with_walls st (walls st ++ [wall]))).
Qed.

Lemma isLegalWall_fewer_walls_witness :
  isLegalWall initialState (mkWall 4 7 Hor) = Returns true.
Proof.
  apply (isLegalWall_fewer_walls
           (with_walls initialState [mkWall 4 8 Ver]) initialState).
  - reflexivity.
  - intros w Hw. simpl in Hw. by apply elem_of_nil in Hw.
  - vm_compute. reflexivity.
Defined.

(** X11. Placing an accepted wall keeps both pawns connected to their goal
    rows: after [applyWall] of a wall that [isLegalWall] accepted, the search
    succeeds for player 0 and for player 1 in the new state. *)
Theorem applyWall_keeps_paths st wall :
  currentPlayer st = 0 ∨ currentPlayer st = 1 →
  isLegalWall st wall = Returns true →
  ∃ st', applyWall st wall = Returns st'
    ∧ hasPathToGoal st' 0 = Returns true
    ∧ hasPathToGoal st' 1 = Returns true.
Proof.
  intros Hcp (_ & _ & H0 & H1)%isLegalWall_true_iff.
  destruct (get_player_total st _ Hcp) as [actor Hactor].
  eexists. split.
  { apply applyWall_Returns. exists actor. split; [done|reflexivity]. }
  set (st' := mkState _ _ _ _ _ _ _ _).
  assert (∀ q pl, get_player (with_walls st (walls st ++ [wall])) q
                    = Returns pl →
            ∃ pl', get_player st' q = Returns pl'
                   ∧ (p_x pl', p_y pl') = (p_x pl, p_y pl)) as Hsame.
  { intros q pl Hq. subst st'.
    apply get_player_Returns in Hq as [[-> ->] | [-> ->]];
      apply get_player_Returns in Hactor as [[Hc ->] | [Hc ->]];
      unfold get_player; simpl; rewrite Hc; simpl; eauto. }
  assert (∀ q, (q = 0 ∨ q = 1) →
            hasPathToGoal (with_walls st (walls st ++ [wall])) q
              = Returns true →
            hasPathToGoal st' q = Returns true) as Hkeep.
  { intros q Hq Htrue.
    destruct (get_player_total (with_walls st (walls st ++ [wall])) q Hq)
      as [pl Hpl].
    destruct (Hsame q pl Hpl) as (pl' & Hpl' & Hpos).
    apply (hasPathToGoal_spec st' q pl' Hpl').
    injection Hpos as -> ->.
    apply (path_to_row_subset (with_walls st (walls st ++ [wall])) st');
      [by subst st'|].
    by apply (hasPathToGoal_spec _ q pl Hpl). }
  split; apply Hkeep; auto.
Qed.

Lemma applyWall_keeps_paths_witness :
  ∃ st', applyWall initialState (mkWall 4 4 Hor) = Returns st'
    ∧ hasPathToGoal st' 0 = Returns true
    ∧ hasPathToGoal st' 1 = Returns true.
Proof.
  apply (applyWall_keeps_paths initialState (mkWall 4 4 Hor)).
  - left. reflexivity.
  - vm_compute. reflexivity.
Defined.

(** ** applyMove: frame, failure and paths *)

Lemma applyMove_fields st p x y st' :
  applyMove st p x y = Returns st' →
  ∃ pl, get_player st p = Returns pl
    ∧ get_player st' p = Returns (mkPlayer (p_id pl) x y (p_walls pl))
    ∧ get_player st' (1 - p) = get_player st (1 - p)
    ∧ walls st' = walls st
    ∧ wallPreview st' = wallPreview st
    ∧ isWallMode st' = isWallMode st
    ∧ selectedPlayer st' = None
    ∧ length (board st') = length (board st).
Proof.
  intros (pl & b1 & b2 & Hpl & Hb1 & Hb2 & ->)%applyMove_Returns.
  exists pl. split; [done|]. simpl.
  apply board_set_length in Hb1, Hb2.
  apply get_player_Returns in Hpl as [[-> ->] | [-> ->]];
    repeat split; try reflexivity; congruence.
Qed.

(** X12. A move touches nothing but the mover's square, two board cells,
    the turn, the winner and the selection: the mover keeps its identifier
    and wall count, the opponent, the walls, the pending wall preview and the
    wall mode are the input's, the selection is cleared, and the board keeps
    its number of rows. *)
Theorem applyMove_frame st p x y st' :
  applyMove st p x y = Returns st' →
  ∃ pl, get_player st p = Returns pl
    ∧ get_player st' p = Returns (mkPlayer (p_id pl) x y (p_walls pl))
    ∧ get_player st' (1 - p) = get_player st (1 - p)
    ∧ walls st' = walls st
    ∧ wallPreview st' = wallPreview st
    ∧ isWallMode st' = isWallMode st
    ∧ selectedPlayer st' = None
    ∧ length (board st') = length (board st).
Proof. apply applyMove_fields. Qed.

Lemma applyMove_frame_witness :
  ∃ pl, get_player initialState 0 = Returns pl
    ∧ get_player (mkState
          [ replicate 9 (Some 0); replicate 9 (Some 0);
            replicate 9 (Some 0); replicate 9 (Some 0);
            Some 2 :: replicate 6 (Some 0) ++ [Some 1; Some 0];
            replicate 9 (Some 0); replicate 9 (Some 0);
            replicate 9 (Some 0); replicate 9 (Some 0) ]
          (mkPlayer 1 4 7 10, mkPlayer 2 4 0 10) [] 1 None None None false)
        0 = Returns (mkPlayer (p_id pl) 4 7 (p_walls pl)).
Proof.
  destruct (applyMove_frame initialState 0 4 7 _ eq_refl)
    as (pl & Hpl & Hpl' & _).
  exists pl. split; [exact Hpl | exact Hpl'].
Defined.

Lemma board_set_not_fuel b i j v : board_set b i j v ≠ OutOfFuel.
Proof. unfold board_set. by destruct (lookupZ b i). Qed.

(** X13. [applyMove] fails only by throwing, and it throws exactly when the
    player index is not 0 or 1 or the board has no row at the pawn's [x] or
    at the destination's [x]; the destination's [y] is never checked. *)
Theorem applyMove_throws_iff st p x y :
  applyMove st p x y ≠ OutOfFuel
  ∧ (applyMove st p x y = Throws ↔
     ¬ ∃ player, get_player st p = Returns player
                 ∧ 0 ≤ p_x player < Z.of_nat (length (board st))
                 ∧ 0 ≤ x < Z.of_nat (length (board st))).
Proof.
  assert (applyMove st p x y ≠ OutOfFuel) as Hfuel.
  { unfold applyMove, get_player.
    destruct (p =? 0); [|destruct (p =? 1); [|discriminate]];
      cbn [mbind outcome_bind];
      (destruct (board_set (board st) _ _ 0) as [b1| |] eqn:Hb1;
       [|discriminate | by apply board_set_not_fuel in Hb1]);
      cbn [mbind outcome_bind];
      (destruct (board_set b1 x y _) as [b2| |] eqn:Hb2;
       [|discriminate | by apply board_set_not_fuel in Hb2]);
      discriminate. }
  split; [exact Hfuel|].
  pose proof (applyMove_returns_iff st p x y) as Hiff.
  setoid_rewrite lookupZ_is_Some in Hiff.
  rewrite <- Hiff.
  destruct (applyMove st p x y) as [st'| |].
  - split; [discriminate|]. intros Hno. exfalso. apply Hno. eauto.
  - split; [|done]. intros _ (st' & Hst'). discriminate.
  - by destruct Hfuel.
Qed.

Lemma applyMove_throws_iff_witness :
  applyMove initialState 0 9 4 = Throws
  ∧ ∃ st', applyMove initialState 0 4 12 = Returns st'
           ∧ length <$> lookupZ (board st') 4 = Some 13%nat.
Proof.
  split.
  - apply (proj2 (applyMove_throws_iff initialState 0 9 4)).
    intros (pl & _ & _ & Hx). simpl in Hx. lia.
  - eexists. split; reflexivity.
Defined.

(** X14. A legal move keeps both pawns connected to their goal rows.  On a
    board with its nine rows and both pawns on it, if the search succeeds for
    both players, then after [applyMove] of a move that [getLegalMoves]
    offers - for a jump, provided no wall lies between the two pawns - it
    still succeeds for both. *)
Theorem applyMove_keeps_paths st p pl opp moves m :
  length (board st) = 9%nat →
  get_player st p = Returns pl →
  get_player st (1 - p) = Returns opp →
  isWithinBounds (p_x pl) (p_y pl) = true →
  isWithinBounds (p_x opp) (p_y opp) = true →
  getLegalMoves st p = Returns moves →
  m ∈ moves →
  (m_type m = jump →
   isWallBlocking st (p_x pl) (p_y pl) (p_x opp) (p_y opp) = false) →
  hasPathToGoal st 0 = Returns true →
  hasPathToGoal st 1 = Returns true →
  ∃ st', applyMove st p (m_x m) (m_y m) = Returns st'
    ∧ hasPathToGoal st' 0 = Returns true
    ∧ hasPathToGoal st' 1 = Returns true.
Proof.
  intros Hlen Hpl Hopp Hbpl Hbopp Hmoves Hm Hjump H0 H1.
  destruct (getLegalMoves_spec st p pl opp Hlen Hpl Hopp)
    as (moves' & Hmoves' & Hspec).
  rewrite Hmoves in Hmoves'. injection Hmoves' as <-.
  apply Hspec in Hm.
  pose proof (legal_move_target _ _ _ _ Hm) as [Hbm _].
  (* the target is linked back to the mover's square by open steps *)
  assert (rtc (open_step st) (m_x m, m_y m) (p_x pl, p_y pl)) as Hback.
  { unfold legal_move in Hm. destruct (m_type m).
    - destruct Hm as (Hadj & _ & _ & Hw).
      apply rtc_once. apply (open_step_sym st (p_x pl, p_y pl)); [done|].
      by split.
    - destruct Hm as (Hadj1 & Hadj2 & _ & Hw).
      eapply rtc_l; [|apply rtc_once].
      + apply (open_step_sym st (p_x opp, p_y opp)); [done|]. by split.
      + apply (open_step_sym st (p_x pl, p_y pl)); [done|].
        split; [done|]. by apply Hjump. }
  assert (∃ st', applyMove st p (m_x m) (m_y m) = Returns st') as [st' Hst'].
  { apply applyMove_returns_iff. exists pl. split; [done|].
    apply isWithinBounds_spec in Hbpl, Hbm.
    split; apply lookupZ_is_Some; lia. }
  exists st'. split; [done|].
  destruct (applyMove_fields _ _ _ _ _ Hst')
    as (pl' & Hpl' & Hmover & Hother & Hwalls & _).
  rewrite Hpl in Hpl'. injection Hpl' as <-.
  assert (∀ w, w ∈ walls st' → w ∈ walls st) as Hsub
    by (by rewrite Hwalls).
  assert (path_to_row st (p_x pl, p_y pl) (goal_row p)) as Hpath_pl.
  { apply (hasPathToGoal_spec st p pl Hpl).
    apply get_player_Returns in Hpl as [[-> _] | [-> _]]; done. }
  assert (path_to_row st (p_x opp, p_y opp) (goal_row (1 - p)))
    as Hpath_opp.
  { apply (hasPathToGoal_spec st (1 - p) opp Hopp).
    apply get_player_Returns in Hpl as [[-> _] | [-> _]]; done. }
  assert (hasPathToGoal st' p = Returns true) as Hp.
  { apply (hasPathToGoal_spec st' p _ Hmover). simpl.
    apply (path_to_row_subset st st' _ _ Hsub).
    by apply (path_to_row_from st _ (p_x pl, p_y pl)). }
  assert (hasPathToGoal st' (1 - p) = Returns true) as Hq.
  { rewrite <- Hother in Hopp.
    apply (hasPathToGoal_spec st' (1 - p) opp Hopp).
    by apply (path_to_row_subset st st' _ _ Hsub). }
  apply get_player_Returns in Hpl as [[-> _] | [-> _]]; done.
Qed.

Lemma applyMove_keeps_paths_witness :
  ∃ st', applyMove separated_state 0 4 6 = Returns st'
    ∧ hasPathToGoal st' 0 = Returns true
    ∧ hasPathToGoal st' 1 = Returns true.
Proof.
  apply (applyMove_keeps_paths separated_state 0 (mkPlayer 1 4 5 10)
           (mkPlayer 2 4 4 10)
           [mkMove 4 3 jump; mkMove 3 4 jump; mkMove 5 4 jump;
            mkMove 4 6 normal; mkMove 3 5 normal; mkMove 5 5 normal]
           (mkMove 4 6 normal)).
  - reflexivity.
  - reflexivity.
  - reflexivity.
  - reflexivity.
  - reflexivity.
  - reflexivity.
  - do 3 right. left.
  - simpl. discriminate.
  - vm_compute. reflexivity.
  - vm_compute. reflexivity.
Defined.

(** ** applyWall: two placements in a row *)

(** X15. [applyWall] throws exactly when [currentPlayer] is not 0 or 1.
    Otherwise two placements in a row return: both walls are appended in
    order, each player has paid one wall, the turn is back with the player
    who placed first, and pawns' squares, board and winner are the input's. *)
Theorem applyWall_twice st w1 w2 :
  (applyWall st w1 = Throws ↔ currentPlayer st ≠ 0 ∧ currentPlayer st ≠ 1)
  ∧ (currentPlayer st = 0 ∨ currentPlayer st = 1 →
     ∃ st1 st2,
       applyWall st w1 = Returns st1
       ∧ applyWall st1 w2 = Returns st2
       ∧ walls st2 = walls st ++ [w1; w2]
       ∧ currentPlayer st2 = currentPlayer st
       ∧ p_walls (players st2).1 = p_walls (players st).1 - 1
       ∧ p_walls (players st2).2 = p_walls (players st).2 - 1
       ∧ (p_id (players st2).1, p_x (players st2).1, p_y (players st2).1)
         = (p_id (players st).1, p_x (players st).1, p_y (players st).1)
       ∧ (p_id (players st2).2, p_x (players st2).2, p_y (players st2).2)
         = (p_id (players st).2, p_x (players st).2, p_y (players st).2)
       ∧ board st2 = board st
       ∧ winner st2 = winner st).
Proof.
  split.
  - unfold applyWall, get_player.
    destruct (Z.eqb_spec (currentPlayer st) 0) as [->|];
      [split; [discriminate | lia]|].
    destruct (Z.eqb_spec (currentPlayer st) 1) as [->|];
      [split; [discriminate | lia]|].
    split; [done | reflexivity].
  - intros Hcp. destruct st as [b [p0 p1] ws cp wp wn sp wm].
    simpl in *.
    destruct Hcp as [-> | ->];
      (eexists; eexists; split; [reflexivity|]; split; [reflexivity|]);
      simpl; rewrite <- app_assoc; repeat split.
Qed.

Lemma applyWall_twice_witness :
  ∃ st1 st2,
    applyWall initialState (mkWall 4 4 Hor) = Returns st1
    ∧ applyWall st1 (mkWall 6 4 Hor) = Returns st2
    ∧ walls st2 = [] ++ [mkWall 4 4 Hor; mkWall 6 4 Hor]
    ∧ currentPlayer st2 = 0
    ∧ p_walls (players st2).1 = 10 - 1
    ∧ p_walls (players st2).2 = 10 - 1
    ∧ (p_id (players st2).1, p_x (players st2).1, p_y (players st2).1)
      = (1, 4, 8)
    ∧ (p_id (players st2).2, p_x (players st2).2, p_y (players st2).2)
      = (2, 4, 0)
    ∧ board st2 = board initialState
    ∧ winner st2 = None.
Proof.
  apply (proj2 (applyWall_twice initialState (mkWall 4 4 Hor)
                  (mkWall 6 4 Hor))).
  left. reflexivity.
Defined.

(** ** The driver: what any sequence of gestures maintains *)

Lemma find_move_Some x y moves m :
  find_move x y moves = Some m → m ∈ moves ∧ m_x m = x ∧ m_y m = y.
Proof.
  unfold find_move. intros [Hin Hf]%find_some.
  split; [by apply list_elem_of_In | lia].
Qed.

Lemma find_wall_None x y ws :
  find_wall x y ws = None → ∀ w, w ∈ ws → (w_x w, w_y w) ≠ (x, y).
Proof.
  unfold find_wall. intros Hnone w Hin%list_elem_of_In [= Hx Hy].
  pose proof (find_none _ _ Hnone w Hin) as Hf. simpl in Hf. lia.
Qed.

Lemma occupancy_ext st st' :
  players st' = players st → board st' = board st →
  occupancy_matches st → occupancy_matches st'.
Proof. unfold occupancy_matches. by intros -> ->. Qed.

Lemma handleSquareClick_returns st x y :
  counts_in_range st → occupancy_matches st →
  ∃ st', handleSquareClick st x y = Returns st' ∧ occupancy_matches st'.
Proof.
  intros (Hcp & _) Hocc. unfold handleSquareClick.
  destruct (_ || _ || _); [eauto|].
  destruct (get_player_total st _ Hcp) as [pl Hpl].
  destruct (get_player_total st (1 - currentPlayer st)) as [opp Hopp];
    [lia|].
  rewrite Hpl, Hopp. cbn [mbind outcome_bind].
  destruct (_ && _).
  { eexists. split; [reflexivity|]. by eapply occupancy_ext. }
  case_bool_decide; [|eauto].
  destruct (getLegalMoves_spec st _ pl opp (occupancy_rows st Hocc) Hpl Hopp)
    as (moves & Hmoves & Hspec).
  rewrite Hmoves. cbn [mbind outcome_bind].
  destruct (find_move x y moves) as [m|] eqn:Hfind.
  - apply find_move_Some in Hfind as (Hm%Hspec & <- & <-).
    apply legal_move_target in Hm as [Hb Hne].
    destruct (applyMove_keeps_occupancy st (currentPlayer st)
                (m_x m) (m_y m) pl opp)
      as (st' & Hst' & Hocc' & _); eauto.
  - destruct (_ || _); [|eauto].
    eexists. split; [reflexivity|]. by eapply occupancy_ext.
Qed.

Lemma handleWallClick_returns st x y :
  counts_in_range st →
  ∃ st', handleWallClick st x y = Returns st'
    ∧ players st' = players st ∧ board st' = board st
    ∧ walls st' = walls st ∧ currentPlayer st' = currentPlayer st
    ∧ winner st' = winner st ∧ selectedPlayer st' = selectedPlayer st
    ∧ isWallMode st' = isWallMode st.
Proof.
  intros (Hcp & _). unfold handleWallClick.
  destruct (_ || _); [by eauto 10|].
  case_bool_decide; [by eauto 10|].
  destruct (get_player_total st _ Hcp) as [pl ->]. cbn [mbind outcome_bind].
  destruct (_ <=? _); [by eauto 10|].
  destruct (wallPreview st) as [wp|]; [destruct (_ && _)|];
    eexists; (split; [reflexivity|]); by repeat split.
Qed.

Lemma handleWallRightClick_cases st x y st' :
  handleWallRightClick st x y = Returns st' →
  st' = st
  ∨ ∃ wp pl st1,
      wallPreview st = Some wp
      ∧ (w_x wp, w_y wp) = (x, y)
      ∧ truthy (winner st) = false
      ∧ isWallMode st = true
      ∧ find_wall x y (walls st) = None
      ∧ get_player st (currentPlayer st) = Returns pl
      ∧ 0 < p_walls pl
      ∧ isLegalWall st wp = Returns true
      ∧ applyWall st wp = Returns st1
      ∧ st' = with_isWallMode st1 false.
Proof.
  unfold handleWallRightClick.
  destruct (wallPreview st) as [wp|]; [|intros [= <-]; by left].
  destruct (truthy (winner st)) eqn:Hw; [intros [= <-]; by left|].
  destruct (isWallMode st) eqn:Hmode; [|intros [= <-]; by left].
  cbn [orb negb].
  case_bool_decide as Hfind; [intros [= <-]; by left|].
  intros (pl & Hpl & Hrest)%bind_Returns.
  destruct (Z.leb_spec (p_walls pl) 0); [injection Hrest as <-; by left|].
  destruct (Z.eqb_spec (w_x wp) x) as [Hx|];
    [|injection Hrest as <-; by left].
  destruct (Z.eqb_spec (w_y wp) y) as [Hy|];
    [|injection Hrest as <-; by left].
  cbn [andb] in Hrest.
  apply bind_Returns in Hrest as ([|] & Hlegal & Hrest);
    [|injection Hrest as <-; by left].
  apply bind_Returns in Hrest as (st1 & Happ & [= <-]).
  right. exists wp, pl, st1. repeat split; try done; try congruence.
  destruct (find_wall x y (walls st)) eqn:Hf; [|done].
  exfalso. apply Hfind. eauto.
Qed.

Lemma handleWallRightClick_returns st x y :
  counts_in_range st → occupancy_matches st →
  ∃ st', handleWallRightClick st x y = Returns st' ∧ occupancy_matches st'.
Proof.
  intros (Hcp & _) Hocc. unfold handleWallRightClick.
  destruct (wallPreview st) as [wp|]; [|eauto].
  destruct (_ || _); [eauto|].
  case_bool_decide; [eauto|].
  destruct (get_player_total st _ Hcp) as [pl ->]. cbn [mbind outcome_bind].
  destruct (_ <=? _); [eauto|].
  destruct (_ && _); [|eauto].
  destruct (isLegalWall_returns st wp) as [[|] ->]; cbn [mbind outcome_bind];
    [|eauto].
  destruct (applyWall_keeps_occupancy st wp Hocc Hcp) as (st1 & -> & Hocc1).
  cbn [mbind outcome_bind]. eexists. split; [reflexivity|].
  by eapply occupancy_ext.
Qed.

Lemma handle_returns st g :
  counts_in_range st → occupancy_matches st →
  ∃ st', handle st g = Returns st' ∧ occupancy_matches st'.
Proof.
  intros Hcounts Hocc. destruct g as [x y | x y | x y | | |]; simpl.
  - by apply handleSquareClick_returns.
  - destruct (handleWallClick_returns st x y Hcounts)
      as (st' & Hst' & Hps & Hb & _).
    exists st'. split; [done|]. by eapply occupancy_ext.
  - by apply handleWallRightClick_returns.
  - eexists. split; [reflexivity|]. by eapply occupancy_ext.
  - eexists. split; [reflexivity|]. unfold handleEscape.
    destruct (isWallMode st); [by eapply occupancy_ext | done].
  - rewrite createInitialState_eq. eexists. split; [reflexivity|].
    apply initialState_occupancy.
Qed.

Lemma foldM_handle_returns gs : ∀ st,
  counts_in_range st → occupancy_matches st →
  ∃ st', foldM handle st gs = Returns st'
         ∧ counts_in_range st' ∧ occupancy_matches st'.
Proof.
  induction gs as [|g gs IH]; intros st Hcounts Hocc; simpl; [eauto|].
  destruct (handle_returns st g Hcounts Hocc) as (st1 & Hst1 & Hocc1).
  rewrite Hst1. cbn [mbind outcome_bind]. apply IH; [|done].
  by eapply handle_counts.
Qed.

Lemma initialState_counts : counts_in_range initialState.
Proof. unfold counts_in_range. simpl. lia. Qed.

(** X16. The driver never fails: whatever gestures reach it, in whatever
    order, no handler throws and no search runs out of its budget. *)
Theorem driver_never_fails gs : ∃ st, run_driver gs = Returns st.
Proof.
  unfold run_driver. rewrite createInitialState_eq. cbn [mbind outcome_bind].
  destruct (foldM_handle_returns gs initialState initialState_counts
              initialState_occupancy) as (st & Hst & _).
  eauto.
Qed.

(** X17. In every state the driver reaches, the board holds exactly the two
    pawns: each pawn stands on the board, on its own cell, which carries its
    identifier, and every other cell is empty. *)
Theorem driver_keeps_occupancy gs st :
  run_driver gs = Returns st → occupancy_matches st.
Proof.
  unfold run_driver. rewrite createInitialState_eq. cbn [mbind outcome_bind].
  destruct (foldM_handle_returns gs initialState initialState_counts
              initialState_occupancy) as (st' & Hst' & _ & Hocc).
  rewrite Hst'. by intros [= <-].
Qed.

Lemma driver_keeps_occupancy_witness :
  ∃ st, run_driver winning_game = Returns st ∧ occupancy_matches st.
Proof.
  destruct (run_driver winning_game) as [st| |] eqn:Hrun.
  - exists st. split; [reflexivity|].
    exact (driver_keeps_occupancy winning_game st Hrun).
  - exfalso. vm_compute in Hrun. discriminate Hrun.
  - exfalso. vm_compute in Hrun. discriminate Hrun.
Defined.

Lemma handleSquareClick_cases st x y st' :
  handleSquareClick st x y = Returns st' →
  (st' = st ∨ ∃ s, st' = with_selectedPlayer st s)
  ∨ ∃ moves m,
      truthy (winner st) = false
      ∧ isWallMode st = false
      ∧ wallPreview st = None
      ∧ selectedPlayer st = Some (currentPlayer st)
      ∧ getLegalMoves st (currentPlayer st) = Returns moves
      ∧ m ∈ moves
      ∧ (m_x m, m_y m) = (x, y)
      ∧ applyMove st (currentPlayer st) x y = Returns st'.
Proof.
  unfold handleSquareClick.
  destruct (truthy (winner st)) eqn:Hw; [intros [= <-]; auto|].
  destruct (isWallMode st) eqn:Hmode; [intros [= <-]; auto|].
  destruct (wallPreview st) as [wp|] eqn:Hwp.
  { rewrite bool_decide_eq_true_2 by eauto. intros [= <-]; auto. }
  rewrite bool_decide_eq_false_2 by (intros [? [=]]). cbn [orb].
  intros (pl & Hpl & Hrest)%bind_Returns.
  apply bind_Returns in Hrest as (opp & Hopp & Hrest).
  destruct (_ && _); [injection Hrest as <-; eauto|].
  case_bool_decide as Hsel; [|injection Hrest as <-; auto].
  apply bind_Returns in Hrest as (moves & Hmoves & Hrest).
  destruct (find_move x y moves) as [m|] eqn:Hfind.
  - right. exists moves, m.
    apply find_move_Some in Hfind as (Hm & Hx & Hy).
    repeat split; try done. congruence.
  - destruct (_ || _); injection Hrest as <-; eauto.
Qed.

(** X18. A click on a square changes the game only by a move of the player
    to move that [getLegalMoves] lists for that player, and only when that
    pawn is selected, no wall is being placed and [winner] is not truthy; in
    every other case nothing but the selection changes. *)
Theorem handleSquareClick_only_listed_moves st x y st' :
  handleSquareClick st x y = Returns st' →
  (board st' = board st ∧ players st' = players st ∧ walls st' = walls st
   ∧ currentPlayer st' = currentPlayer st ∧ winner st' = winner st
   ∧ wallPreview st' = wallPreview st ∧ isWallMode st' = isWallMode st)
  ∨ ∃ moves m,
      truthy (winner st) = false
      ∧ isWallMode st = false
      ∧ wallPreview st = None
      ∧ selectedPlayer st = Some (currentPlayer st)
      ∧ getLegalMoves st (currentPlayer st) = Returns moves
      ∧ m ∈ moves
      ∧ (m_x m, m_y m) = (x, y)
      ∧ applyMove st (currentPlayer st) x y = Returns st'.
Proof.
  intros [[-> | [s ->]] | Hmove]%handleSquareClick_cases;
    [left; by repeat split | left; by repeat split | by right].
Qed.

Lemma handleSquareClick_only_listed_moves_witness :
  ∃ moves m,
    getLegalMoves (with_selectedPlayer initialState (Some 0)) 0
      = Returns moves
    ∧ m ∈ moves ∧ (m_x m, m_y m) = (4, 7).
Proof.
  destruct (handleSquareClick_only_listed_moves
              (with_selectedPlayer initialState (Some 0)) 4 7 _ eq_refl)
    as [(Hb & _) | (moves & m & _ & _ & _ & _ & Hmoves & Hm & Hxy & _)].
  - exfalso. vm_compute in Hb. discriminate Hb.
  - exists moves, m. split; [exact Hmoves|]. split; [exact Hm | exact Hxy].
Defined.

(** X19. A right click on an intersection changes the state only by placing
    the previewed wall, and only when that wall sits on the clicked
    intersection, wall mode is on, [winner] is not truthy, no wall is on that
    intersection yet, the player to move has a wall left and [isLegalWall]
    accepts the wall; the wall mode is then switched off.  In every other
    case the state is unchanged. *)
Theorem handleWallRightClick_only_legal_walls st x y st' :
  handleWallRightClick st x y = Returns st' →
  st' = st
  ∨ ∃ wp pl st1,
      wallPreview st = Some wp
      ∧ (w_x wp, w_y wp) = (x, y)
      ∧ truthy (winner st) = false
      ∧ isWallMode st = true
      ∧ find_wall x y (walls st) = None
      ∧ get_player st (currentPlayer st) = Returns pl
      ∧ 0 < p_walls pl
      ∧ isLegalWall st wp = Returns true
      ∧ applyWall st wp = Returns st1
      ∧ st' = with_isWallMode st1 false.
Proof. apply handleWallRightClick_cases. Qed.

Lemma handleWallRightClick_only_legal_walls_witness :
  isLegalWall
    (with_wallPreview (with_isWallMode initialState true)
                      (Some (mkWall 4 4 Hor)))
    (mkWall 4 4 Hor) = Returns true.
Proof.
  destruct (handleWallRightClick_only_legal_walls
              (with_wallPreview (with_isWallMode initialState true)
                                (Some (mkWall 4 4 Hor))) 4 4 _ eq_refl)
    as [Hsame | (wp & pl & st1 & Hwp & _ & _ & _ & _ & _ & _ & Hlegal & _)].
  - exfalso. vm_compute in Hsame. discriminate Hsame.
  - simpl in Hwp. injection Hwp as <-. exact Hlegal.
Defined.

Lemma handleWallClick_cases st x y st' :
  handleWallClick st x y = Returns st' →
  (st' = st
   ∧ (truthy (winner st) = true ∨ isWallMode st = false
      ∨ is_Some (find_wall x y (walls st))
      ∨ ∃ pl, get_player st (currentPlayer st) = Returns pl
              ∧ p_walls pl ≤ 0))
  ∨ (truthy (winner st) = false ∧ isWallMode st = true
     ∧ find_wall x y (walls st) = None
     ∧ (∃ pl, get_player st (currentPlayer st) = Returns pl
              ∧ 0 < p_walls pl)
     ∧ ∃ o, st' = with_wallPreview st (Some (mkWall x y o))
            ∧ match wallPreview st with
              | Some wp =>
                  if (w_x wp =? x) && (w_y wp =? y)
                  then o = flip_orientation (w_orientation wp)
                  else o = Hor
              | None => o = Hor
              end).
Proof.
  unfold handleWallClick.
  destruct (truthy (winner st)) eqn:Hw; [intros [= <-]; left; auto|].
  destruct (isWallMode st) eqn:Hmode; [|intros [= <-]; left; auto].
  cbn [orb negb].
  case_bool_decide as Hfind; [intros [= <-]; left; auto|].
  assert (find_wall x y (walls st) = None) as Hnone.
  { destruct (find_wall x y (walls st)) eqn:Hf; [|done].
    exfalso. apply Hfind. eauto. }
  intros (pl & Hpl & Hrest)%bind_Returns.
  destruct (Z.leb_spec (p_walls pl) 0);
    [injection Hrest as <-; left; split; [done|]; eauto 10|].
  right. do 3 (split; [done|]). split; [eauto|].
  destruct (wallPreview st) as [wp|].
  - destruct (Z.eqb_spec (w_x wp) x) as [Hx|];
      [destruct (Z.eqb_spec (w_y wp) y) as [Hy|]|];
      cbn [andb] in *; injection Hrest as <-; eauto.
    subst x y. eauto.
  - injection Hrest as <-. eauto.
Qed.

(** X20. A click on an intersection touches nothing but the pending wall
    preview; and when the click is taken on the intersection that is already
    previewed, it turns the preview, so that a second click there brings the
    state back. *)
Theorem handleWallClick_preview_only st x y st1 :
  handleWallClick st x y = Returns st1 →
  (board st1 = board st ∧ players st1 = players st ∧ walls st1 = walls st
   ∧ currentPlayer st1 = currentPlayer st ∧ winner st1 = winner st
   ∧ selectedPlayer st1 = selectedPlayer st
   ∧ isWallMode st1 = isWallMode st)
  ∧ (∀ wp st2,
       wallPreview st = Some wp → (w_x wp, w_y wp) = (x, y) →
       handleWallClick st1 x y = Returns st2 → st2 = st).
Proof.
  intros H1. pose proof H1 as Hcases.
  apply handleWallClick_cases in Hcases
    as [[-> _] | (Hw & Hmode & Hnone & (pl & Hpl & Hleft) & o & -> & Ho)].
  - split; [by repeat split|]. intros wp st2 _ _ H2. congruence.
  - split; [by repeat split|]. intros wp st2 Hwp [= Hx Hy] H2.
    rewrite Hwp in Ho. rewrite Hx, Hy, !Z.eqb_refl in Ho. simpl in Ho.
    apply handleWallClick_cases in H2
      as [[_ Hnot] | (_ & _ & _ & _ & o2 & -> & Ho2)].
    + exfalso. simpl in Hnot.
      destruct Hnot as [Hnot | [Hnot | [[? Hnot] | (pl' & Hpl' & Hnot)]]];
        try congruence.
      change (get_player st (currentPlayer st) = Returns pl') in Hpl'.
      rewrite Hpl in Hpl'. injection Hpl' as <-. lia.
    + simpl in Ho2. rewrite !Z.eqb_refl in Ho2. simpl in Ho2.
      subst o o2. destruct st, wp as [wx wy wo]. simpl in *.
      subst. unfold with_wallPreview. simpl. by destruct wo.
Qed.

Lemma handleWallClick_preview_only_witness :
  handleWallClick
    (with_wallPreview (with_isWallMode initialState true)
                      (Some (mkWall 4 4 Ver))) 4 4
  = Returns (with_wallPreview (with_isWallMode initialState true)
                              (Some (mkWall 4 4 Hor))).
Proof.
  destruct (handleWallClick
              (with_wallPreview (with_isWallMode initialState true)
                                (Some (mkWall 4 4 Ver))) 4 4)
    as [st2| |] eqn:H2.
  - f_equal.
    apply (proj2 (handleWallClick_preview_only
                    (with_wallPreview (with_isWallMode initialState true)
                                      (Some (mkWall 4 4 Hor)))
                    4 4 _ eq_refl) (mkWall 4 4 Hor) st2);
      [reflexivity | reflexivity | exact H2].
  - exfalso. vm_compute in H2. discriminate H2.
  - exfalso. vm_compute in H2. discriminate H2.
Defined.

Lemma walls_accounted_ext st st' :
  walls st' = walls st →
  p_walls (players st').1 = p_walls (players st).1 →
  p_walls (players st').2 = p_walls (players st).2 →
  walls_accounted st → walls_accounted st'.
Proof. unfold walls_accounted. by intros -> -> ->. Qed.

Lemma applyMove_walls_accounted st p x y st' :
  applyMove st p x y = Returns st' →
  walls_accounted st → walls_accounted st'.
Proof.
  intros (pl & b1 & b2 & Hpl & _ & _ & ->)%applyMove_Returns.
  apply walls_accounted_ext; [done|..];
    apply get_player_Returns in Hpl as [[-> ->] | [-> ->]]; done.
Qed.

Lemma applyWall_walls_accounted st wall st' :
  isLegalWall st wall = Returns true →
  applyWall st wall = Returns st' →
  walls_accounted st → walls_accounted st'.
Proof.
  intros ((Hrx & Hry) & Hno & _)%isLegalWall_true_iff
    (pl & Hpl & ->)%applyWall_Returns (Hrange & Hdup & Hsum).
  unfold walls_accounted. simpl. split; [|split].
  - intros w [Hw | ->%list_elem_of_singleton]%elem_of_app; auto.
  - rewrite fmap_app. apply NoDup_app. split; [done|]. split.
    + intros c (ew & -> & Hew)%list_elem_of_fmap Hc%list_elem_of_singleton.
      specialize (Hno ew Hew). unfold wall_conflicts in Hno.
      injection Hc as Hx Hy. rewrite Hx, Hy, !Z.eqb_refl in Hno.
      discriminate.
    + apply NoDup_singleton.
  - rewrite length_app. simpl.
    apply get_player_Returns in Hpl as [[Hc ->] | [Hc ->]];
      rewrite Hc; simpl; lia.
Qed.

Lemma handle_walls_accounted st g st' :
  walls_accounted st → handle st g = Returns st' → walls_accounted st'.
Proof.
  intros Hacc. destruct g as [x y | x y | x y | | |]; simpl.
  - intros [[-> | [s ->]] | (_ & _ & _ & _ & _ & _ & _ & _ & _ & Happ)]%
      handleSquareClick_cases; [done | done |].
    by eapply applyMove_walls_accounted.
  - intros [[-> _] | (_ & _ & _ & _ & o & -> & _)]%handleWallClick_cases;
      done.
  - intros [-> | (wp & pl & st1 & _ & _ & _ & _ & _ & _ & _ & Hlegal
                  & Happ & ->)]%handleWallRightClick_cases; [done|].
    apply (walls_accounted_ext st1); [done..|].
    by eapply applyWall_walls_accounted.
  - by intros [= <-].
  - unfold handleEscape. destruct (isWallMode st); by intros [= <-].
  - rewrite createInitialState_eq. intros [= <-].
    unfold walls_accounted. simpl. split; [|split; [constructor | lia]].
    intros w Hw. by apply elem_of_nil in Hw.
Qed.

(** X21. In every state the driver reaches, each placed wall lies on an
    intersection of 1..8 x 1..8, no two walls share an intersection, and the
    walls on the board plus the walls the two players still hold are twenty;
    each player holds between 0 and 10. *)
Theorem driver_walls_accounted gs st :
  run_driver gs = Returns st →
  walls_accounted st
  ∧ 0 ≤ p_walls (players st).1 ≤ 10
  ∧ 0 ≤ p_walls (players st).2 ≤ 10.
Proof.
  intros Hrun. split;
    [|by destruct (driver_counts_in_range gs st Hrun) as (_ & ? & ?)].
  revert Hrun. unfold run_driver. rewrite createInitialState_eq.
  cbn [mbind outcome_bind].
  assert (walls_accounted initialState) as Hinit.
  { unfold walls_accounted. simpl. split; [|split; [constructor | lia]].
    intros w Hw. by apply elem_of_nil in Hw. }
  revert Hinit. generalize initialState as st0.
  induction gs as [|g gs IH]; intros st0 Hacc; simpl.
  - by intros [= <-].
  - intros (st1 & Hg & Hrest)%bind_Returns.
    eapply IH; [|done]. by eapply handle_walls_accounted.
Qed.

Lemma driver_walls_accounted_witness :
  ∃ st, run_driver [ToggleWallMode; WallClick 4 4; WallRightClick 4 4]
        = Returns st
    ∧ walls st = [mkWall 4 4 Hor]
    ∧ walls_accounted st
    ∧ 0 ≤ p_walls (players st).1 ≤ 10
    ∧ 0 ≤ p_walls (players st).2 ≤ 10.
Proof.
  eexists. split; [vm_compute; reflexivity|]. split; [reflexivity|].
  apply (driver_walls_accounted
           [ToggleWallMode; WallClick 4 4; WallRightClick 4 4]).
  vm_compute. reflexivity.
Defined.

(** X22. Once player 1 has won, the game stays as it is until it is reset:
    no sequence of clicks, wall-mode toggles and Escape keys fails or changes
    the board, the pawns, the walls, the turn or the winner. *)
Theorem won_by_player1_is_final st gs :
  winner st = Some 1 →
  ResetGame ∉ gs →
  ∃ st', foldM handle st gs = Returns st'
    ∧ board st' = board st ∧ players st' = players st
    ∧ walls st' = walls st ∧ currentPlayer st' = currentPlayer st
    ∧ winner st' = Some 1.
Proof.
  revert st. induction gs as [|g gs IH]; intros st Hw Hreset; simpl.
  { eexists. split; [reflexivity|]. by repeat split. }
  assert (ResetGame ∉ gs) as Hreset' by (intros Hin; apply Hreset; by right).
  assert (∃ st1, handle st g = Returns st1
            ∧ board st1 = board st ∧ players st1 = players st
            ∧ walls st1 = walls st ∧ currentPlayer st1 = currentPlayer st
            ∧ winner st1 = Some 1)
    as (st1 & Hst1 & Hb & Hps & Hws & Hcp & Hw1).
  { destruct g as [x y | x y | x y | | |]; simpl.
    - destruct (handlers_closed_after_player1_wins st x y Hw) as (-> & _).
      by eauto 10.
    - destruct (handlers_closed_after_player1_wins st x y Hw)
        as (_ & -> & _). by eauto 10.
    - destruct (handlers_closed_after_player1_wins st x y Hw)
        as (_ & _ & ->). by eauto 10.
    - eexists. split; [reflexivity|]. by repeat split.
    - eexists. split; [reflexivity|]. unfold handleEscape.
      destruct (isWallMode st); by repeat split.
    - exfalso. apply Hreset. left. }
  rewrite Hst1. cbn [mbind outcome_bind].
  destruct (IH st1 Hw1 Hreset') as (st' & Hst' & Hb' & Hps' & Hws' & Hcp' & Hw').
  exists st'. split; [done|]. repeat split; congruence.
Qed.

Lemma won_by_player1_is_final_witness :
  ∃ st', foldM handle won_by_player1
           [SquareClick 4 8; SquareClick 4 7; ToggleWallMode;
            WallClick 4 4; WallRightClick 4 4; EscapeKey] = Returns st'
    ∧ board st' = board won_by_player1
    ∧ players st' = players won_by_player1
    ∧ walls st' = walls won_by_player1
    ∧ currentPlayer st' = currentPlayer won_by_player1
    ∧ winner st' = Some 1.
Proof.
  apply (won_by_player1_is_final won_by_player1).
  - reflexivity.
  - intros Hin. repeat (apply elem_of_cons in Hin as [Hin | Hin];
                        [discriminate Hin|]).
    by apply elem_of_nil in Hin.
Defined.

(** ** A position in which nothing can be played *)

Lemma pocket_game_result : run_driver pocket_game = Returns pocket_state.
Proof. vm_compute. reflexivity. Qed.

Lemma pocket_state_no_path : hasPathToGoal pocket_state 1 = Returns false.
Proof. vm_compute. reflexivity. Qed.

Lemma pocket_handle st g :
  same_game pocket_state st → g ≠ ResetGame →
  ∃ st', handle st g = Returns st' ∧ same_game pocket_state st'.
Proof.
  intros (Hb & Hps & Hws & Hcp & Hw) Hreset.
  assert (counts_in_range st) as Hcounts.
  { unfold counts_in_range. rewrite Hcp, Hps. simpl. lia. }
  assert (occupancy_matches st) as Hocc.
  { apply (occupancy_ext pocket_state); [done | done |].
    unfold occupancy_matches, pocket_state; simpl.
    repeat split; congruence. }
  destruct (handle_returns st g Hcounts Hocc) as (st' & Hst' & _).
  exists st'. split; [done|].
  destruct g as [x y | x y | x y | | |]; simpl in Hst'.
  - apply handleSquareClick_cases in Hst'
      as [[-> | [s ->]] | (moves & m & _ & _ & _ & _ & Hmoves & Hm & _)];
      [done | done |].
    exfalso. destruct st. simpl in *. subst.
    vm_compute in Hmoves. injection Hmoves as <-.
    by apply elem_of_nil in Hm.
  - apply handleWallClick_cases in Hst'
      as [[-> _] | (_ & _ & _ & _ & o & -> & _)]; done.
  - apply handleWallRightClick_cases in Hst'
      as [-> | (wp & pl & st1 & _ & _ & _ & _ & _ & _ & _ & Hlegal & _)];
      [done|].
    exfalso. apply isLegalWall_true_iff in Hlegal as (_ & _ & _ & H1).
    apply (hasPathToGoal_subset _ pocket_state) in H1.
    + rewrite pocket_state_no_path in H1. discriminate.
    + simpl. done.
    + simpl. rewrite Hws. intros w Hw'. apply elem_of_app. by left.
  - injection Hst' as <-. done.
  - injection Hst' as <-. unfold handleEscape.
    destruct (isWallMode st); done.
  - done.
Qed.

(** X23. Play can come to a dead end with no winner.  The game
    [pocket_game], played through the click handlers, ends with player 1
    having jumped over player 0 across a wall into a walled-off pocket: no
    winner is declared, player 1 has no path to its goal row, and from then
    on no sequence of clicks, wall-mode toggles and Escape keys changes the
    board, the pawns, the walls, the turn or the winner - the player to move
    is offered no move and every wall is refused. *)
Theorem jump_across_wall_can_end_play :
  ∃ st, run_driver pocket_game = Returns st
    ∧ winner st = None
    ∧ hasPathToGoal st 1 = Returns false
    ∧ getLegalMoves st (currentPlayer st) = Returns []
    ∧ (∀ wall, isLegalWall st wall = Returns false)
    ∧ ∀ gs, ResetGame ∉ gs →
        ∃ st', foldM handle st gs = Returns st' ∧ same_game st st'.
Proof.
  exists pocket_state. split; [apply pocket_game_result|].
  split; [reflexivity|]. split; [apply pocket_state_no_path|].
  split; [vm_compute; reflexivity|]. split.
  - intros wall. destruct (isLegalWall_returns pocket_state wall)
      as [[|] Hret]; [|exact Hret].
    exfalso. apply isLegalWall_true_iff in Hret as (_ & _ & _ & H1).
    apply (hasPathToGoal_subset _ pocket_state) in H1.
    + rewrite pocket_state_no_path in H1. discriminate.
    + reflexivity.
    + intros w Hw. change (w ∈ walls pocket_state ++ [wall]).
      apply elem_of_app. by left.
  - assert (same_game pocket_state pocket_state) as Hsame
      by (by repeat split).
    revert Hsame. generalize pocket_state at 2 3 as st.
    intros st Hsame gs. revert st Hsame.
    induction gs as [|g gs IH]; intros st Hsame Hreset; simpl; [eauto|].
    destruct (pocket_handle st g Hsame) as (st1 & Hst1 & Hsame1).
    { intros ->. apply Hreset. left. }
    rewrite Hst1. cbn [mbind outcome_bind]. apply IH; [done|].
    intros Hin. apply Hreset. by right.
Qed.

(** ** Moving there and back *)

(** X24. On a board that holds exactly the two pawns, moving a pawn to a
    cell of the board other than the opponent's and then back to where it
    stood restores the board, both pawns and the walls. *)
Theorem applyMove_there_and_back st p x y pl opp :
  occupancy_matches st →
  get_player st p = Returns pl →
  get_player st (1 - p) = Returns opp →
  isWithinBounds x y = true →
  (x, y) ≠ (p_x opp, p_y opp) →
  ∃ st1 st2,
    applyMove st p x y = Returns st1
    ∧ applyMove st1 p (p_x pl) (p_y pl) = Returns st2
    ∧ board st2 = board st
    ∧ players st2 = players st
    ∧ walls st2 = walls st.
Proof.
  intros Hocc Hpl Hopp Hb Hne.
  destruct (applyMove_keeps_occupancy st p x y pl opp)
    as (st1 & Hst1 & Hocc1 & _); try done.
  destruct (applyMove_fields _ _ _ _ _ Hst1)
    as (pl0 & Hpl0 & Hmover1 & Hother1 & Hwalls1 & _).
  rewrite Hpl in Hpl0. injection Hpl0 as <-.
  rewrite Hopp in Hother1.
  assert ((p_x pl, p_y pl) ≠ (p_x opp, p_y opp)) as Hapart.
  { destruct Hocc as (_ & _ & Hne' & _).
    apply get_player_Returns in Hpl as [[-> ->] | [-> ->]];
      apply get_player_Returns in Hopp as [[Hp ->] | [Hp ->]];
      try discriminate Hp; congruence. }
  destruct (applyMove_keeps_occupancy st1 p (p_x pl) (p_y pl) _ opp
              Hocc1 Hmover1 Hother1)
    as (st2 & Hst2 & Hocc2 & _).
  { exact (occupancy_player_bounds st p pl Hocc Hpl). }
  { exact Hapart. }
  exists st1, st2. split; [done|]. split; [done|].
  destruct (applyMove_fields _ _ _ _ _ Hst2)
    as (pl1 & Hpl1 & Hmover2 & Hother2 & Hwalls2 & _).
  rewrite Hmover1 in Hpl1. injection Hpl1 as <-. simpl in Hmover2.
  rewrite Hother1 in Hother2.
  assert (players st2 = players st) as Hps.
  { destruct pl as [i px py n]. simpl in *.
    destruct (players st) as [a0 a1] eqn:Ha, (players st2) as [c0 c1] eqn:Hc.
    apply get_player_Returns in Hpl as [[-> Hq] | [-> Hq]];
      apply get_player_Returns in Hopp as [[Hp Hq'] | [Hp Hq']];
      try discriminate Hp;
      apply get_player_Returns in Hmover2 as [[Hp2 Hm] | [Hp2 Hm]];
      try discriminate Hp2;
      apply get_player_Returns in Hother2 as [[Hp3 Ho] | [Hp3 Ho]];
      try discriminate Hp3;
      rewrite ?Ha, ?Hc in *; simpl in *; congruence. }
  split; [|split; [done | congruence]].
  destruct Hocc as (_ & _ & _ & ->). destruct Hocc2 as (_ & _ & _ & ->).
  by rewrite Hps.
Qed.

Lemma applyMove_there_and_back_witness :
  ∃ st1 st2,
    applyMove initialState 0 4 7 = Returns st1
    ∧ applyMove st1 0 4 8 = Returns st2
    ∧ board st2 = board initialState
    ∧ players st2 = players initialState
    ∧ walls st2 = walls initialState.
Proof.
  apply (applyMove_there_and_back initialState 0 4 7
           (mkPlayer 1 4 8 10) (mkPlayer 2 4 0 10)).
  - apply initialState_occupancy.
  - reflexivity.
  - reflexivity.
  - reflexivity.
  - intros [=].
Defined.

(** ** The search and the pawns *)

(** X25. The search does not treat pawns as obstacles, nor does it read the
    board: in two states with the same walls in which the pawn of player [p]
    stands on the same square, [hasPathToGoal] gives the same answer for
    [p], wherever the other pawn stands. *)
Theorem hasPathToGoal_ignores_pawns st st' p pl pl' :
  walls st = walls st' →
  get_player st p = Returns pl →
  get_player st' p = Returns pl' →
  (p_x pl, p_y pl) = (p_x pl', p_y pl') →
  hasPathToGoal st p = hasPathToGoal st' p.
Proof.
  intros Hws Hpl Hpl' Hpos.
  assert (p = 0 ∨ p = 1) as Hp
    by (apply get_player_Returns in Hpl; tauto).
  pose proof (hasPathToGoal_spec st p pl Hpl) as Hs.
  pose proof (hasPathToGoal_spec st' p pl' Hpl') as Hs'.
  rewrite <- Hpos in Hs'.
  assert (path_to_row st (p_x pl, p_y pl) (goal_row p)
          ↔ path_to_row st' (p_x pl, p_y pl) (goal_row p)) as Hpaths.
  { split; apply path_to_row_subset; intros w Hw; congruence. }
  destruct (hasPathToGoal_returns st p Hp) as [b Hb].
  destruct (hasPathToGoal_returns st' p Hp) as [b' Hb'].
  rewrite Hb, Hb' in *. f_equal.
  destruct b, b'; try reflexivity.
  - assert (Returns (A:=bool) false = Returns true) as Habs by tauto.
    discriminate Habs.
  - assert (Returns (A:=bool) false = Returns true) as Habs by tauto.
    discriminate Habs.
Qed.

Lemma hasPathToGoal_ignores_pawns_witness :
  hasPathToGoal facing_state 0 = hasPathToGoal won_by_player1 0.
Proof.
  apply (hasPathToGoal_ignores_pawns facing_state won_by_player1 0
           (mkPlayer 1 4 5 10) (mkPlayer 1 4 5 10)); reflexivity.
Defined.
